(** * Kasiski examination and language detection: a shallow embedding

    The two Python modules of the repository, [kasiski_examination.py] and
    [language.py], are embedded function by function.  Python integers are
    [Z]; strings are lists of characters; a [dict] is an association list
    in insertion order (Python dictionaries iterate in insertion order, and
    the order is observable through [find_key_lengths]); a [set] is a
    [gset]; exceptions are the [Raise] outcomes of a small error monad.
    The numbers of [language.py] (frequencies read from JSON, their
    differences and quotients) are kept abstract behind the class [Number];
    the directory of frequency tables is a parameter of every function that
    reads it, and [detect_language_in] also covers the directory that is
    missing. *)

From Stdlib Require Import ZArith List Ascii String Lia QArith Qabs.
From stdpp Require Import base tactics option list numbers strings gmap sorting.

#[local] Close Scope Q_scope.
#[local] Open Scope Z_scope.

(** ** Python values and control *)

(** A Python [str]: a sequence of characters. *)
Definition str := list ascii.

(** The exceptions the two modules can raise. *)
Inductive exn : Type :=
| ValueError
| FileNotFoundError
| JSONDecodeError
| ZeroDivisionError.

#[global] Instance exn_eq_dec : EqDecision exn.
Proof. solve_decision. Defined.

(** The outcome of a call: a value, a raised exception, or [OutOfFuel] when
    the model of a [while] loop was given too few iterations. *)
Inductive outcome (A : Type) : Type :=
| Ok (a : A)
| Raise (e : exn)
| OutOfFuel.
Arguments Ok {A} a.
Arguments Raise {A} e.
Arguments OutOfFuel {A}.

#[global] Instance outcome_ret : MRet outcome := λ A a, Ok a.
#[global] Instance outcome_bind : MBind outcome := λ A B f m,
  match m with
  | Ok a => f a
  | Raise e => Raise e
  | OutOfFuel => OutOfFuel
  end.

(** [len(l)] *)
Definition len {A : Type} (l : list A) : Z := Z.of_nat (length l).

(** [range(start, stop)] *)
Definition range (start stop : Z) : list Z := seqZ start (stop - start).

(** [text[lo:hi]] for [0 <= lo <= hi]; as in Python the slice is clamped to
    the end of the sequence.  Both call sites have [0 <= lo <= hi]. *)
Definition slice {A : Type} (text : list A) (lo hi : Z) : list A :=
  take (Z.to_nat (hi - lo)) (drop (Z.to_nat lo) text).

(** [positions[i]] for an index that is in range (every use is guarded by the
    bound of the enclosing [range]). *)
Definition item (positions : list Z) (i : Z) : Z := nth (Z.to_nat i) positions 0.

(** ** Dictionaries in insertion order *)

Module Dict.
Section ops.
Context {K V : Type} `{EqDecision K}.

(** [d.get(k)], [None] when the key is absent. *)
Fixpoint lookup (d : list (K * V)) (k : K) : option V :=
  match d with
  | [] => None
  | (k', v) :: d' => if decide (k = k') then Some v else lookup d' k
  end.

(** [d.get(k, default)] *)
Definition get (d : list (K * V)) (k : K) (default : V) : V :=
  match lookup d k with
  | Some v => v
  | None => default
  end.

(** [k in d] *)
Definition contains (d : list (K * V)) (k : K) : bool :=
  match lookup d k with
  | Some _ => true
  | None => false
  end.

(** [d[k] = v]: an existing key keeps its place, a new key goes last. *)
Fixpoint setitem (d : list (K * V)) (k : K) (v : V) : list (K * V) :=
  match d with
  | [] => [(k, v)]
  | (k', v') :: d' =>
      if decide (k = k') then (k, v) :: d' else (k', v') :: setitem d' k v
  end.

Definition keys (d : list (K * V)) : list K := map fst d.
Definition values (d : list (K * V)) : list V := map snd d.
Definition items (d : list (K * V)) : list (K * V) := d.

End ops.
End Dict.

Abbreviation dict K V := (list (K * V)) (only parsing).

(** ** kasiski_examination.py *)

(** The body of the inner loop of [find_repeat_sequences]. *)
Definition record_occurrence (text : str) (length : Z)
    (sequences : dict str (list Z)) (i : Z) : dict str (list Z) :=
  let sequence := slice text i (i + length) in
  match Dict.lookup sequences sequence with
  | Some positions => Dict.setitem sequences sequence (positions ++ [i])
  | None => Dict.setitem sequences sequence [i]
  end.

(** The inner loop: [for i in range(len(text) - length)]. *)
Definition scan_length (text : str) (sequences : dict str (list Z))
    (length : Z) : dict str (list Z) :=
  foldl (record_occurrence text length) sequences (range 0 (len text - length)).

(** The outer loop: [for length in range(min_length, len(text) // 2 + 1)]. *)
Definition scan_text (text : str) (min_length : Z) : dict str (list Z) :=
  foldl (scan_length text) [] (range min_length (len text `div` 2 + 1)).

Definition default_min_length : Z := 3.

Definition find_repeat_sequences (text : str) (min_length : Z)
    : outcome (dict str (list Z)) :=
  if decide (min_length < 2 ∨ min_length >= len text `div` 2) then
    Raise ValueError
  else
    let sequences := scan_text text min_length in
    Ok (filter (λ kv, 1 < len kv.2) sequences).

Definition get_spaces (sequences : dict str (list Z)) : list Z :=
  foldl (λ spaces positions,
           foldl (λ spaces i, spaces ++ [item positions (i + 1) - item positions i])
                 spaces (range 0 (len positions - 1)))
        [] (Dict.values sequences).

(** The [while i*i <= number] loop of [find_factors]; [fuel] bounds the
    number of iterations. *)
Fixpoint find_factors_loop (fuel : nat) (number i : Z) (factors : gset Z)
    : option (gset Z) :=
  match fuel with
  | O => None
  | S fuel' =>
      if decide (i * i <= number) then
        let factors :=
          if decide (number `mod` i = 0)
          then {[number `div` i]} ∪ ({[i]} ∪ factors)
          else factors in
        find_factors_loop fuel' number (i + 1) factors
      else Some factors
  end.

Definition find_factors (number : Z) : outcome (gset Z) :=
  if decide (number <= 1) then Raise ValueError
  else
    match find_factors_loop (Z.to_nat number) number 2 ∅ with
    | Some factors => Ok ({[number]} ∪ factors)
    | None => OutOfFuel
    end.

(** [sorted(items, key=lambda x: x[1], reverse=True)]: the stable sort by
    decreasing count.  [insert_by_count x l] puts [x] in front of the first
    entry whose count does not exceed that of [x]. *)
Fixpoint insert_by_count (x : Z * Z) (l : list (Z * Z)) : list (Z * Z) :=
  match l with
  | [] => [x]
  | y :: l' =>
      if decide (x.2 < y.2) then y :: insert_by_count x l' else x :: y :: l'
  end.

Definition sorted_by_count (items : list (Z * Z)) : list (Z * Z) :=
  foldr insert_by_count [] items.

(** [heapq.nlargest(n, items, key=lambda x: x[1])], which the library
    documents as [sorted(items, key=key, reverse=True)[:n]]; no entry is
    returned for [n <= 0]. *)
Definition nlargest (n : Z) (items : list (Z * Z)) : list (Z * Z) :=
  take (Z.to_nat n) (sorted_by_count items).

Section find_key_lengths.

(** The order in which Python iterates over a [set] is not specified; it is
    a parameter of the model. *)
Variable set_iter : gset Z → list Z.

(** The first loop: [for distance in spaces: factors.extend(find_factors(distance))]. *)
Fixpoint collect_factors (factors : list Z) (spaces : list Z) : outcome (list Z) :=
  match spaces with
  | [] => Ok factors
  | distance :: spaces' =>
      fs ← find_factors distance;
      collect_factors (factors ++ set_iter fs) spaces'
  end.

(** The body of the second loop:
    [key_lengths[factor] = key_lengths.get(factor, 0) + 1]. *)
Definition tally (key_lengths : dict Z Z) (factor : Z) : dict Z Z :=
  Dict.setitem key_lengths factor (Dict.get key_lengths factor 0 + 1).

Definition find_key_lengths (spaces : list Z) (n : option Z)
    : outcome (list (Z * Z)) :=
  factors ← collect_factors [] spaces;
  let key_lengths := foldl tally [] factors in
  match n with
  | None => Ok (sorted_by_count (Dict.items key_lengths))
  | Some n => Ok (nlargest n (Dict.items key_lengths))
  end.

(** The pipeline of the module's [__main__] block:
    [find_key_lengths(get_spaces(find_repeat_sequences(text)), n)]. *)
Definition key_lengths_of_text (text : str) (min_length : Z) (n : option Z)
    : outcome (list (Z * Z)) :=
  sequences ← find_repeat_sequences text min_length;
  find_key_lengths (get_spaces sequences) n.

End find_key_lengths.

(** ** language.py *)

(** Python numbers ([int] and [float] values and their mixed arithmetic) as
    far as [language.py] uses them.  [of_int] embeds the integers; the two
    laws are what the results below rely on: subtraction of integers is
    exact, and [>] is transitive. *)
Class Number (R : Type) : Type := {
  of_int : Z → R;
  add : R → R → R;
  sub : R → R → R;
  absolute : R → R;
  truediv : R → R → R;
  gt : R → R → bool;
  sub_of_int : ∀ a b, sub (of_int a) (of_int b) = of_int (a - b);
  gt_trans : ∀ a b c, gt a b = true → gt b c = true → gt a c = true
}.

(** The exact rationals are such numbers. *)
Definition Qgt_bool (a b : Q) : bool :=
  match Qlt_le_dec b a with
  | left _ => true
  | right _ => false
  end.

#[global, refine] Instance Q_number : Number Q := {|
  of_int := inject_Z;
  add := Qplus;
  sub := Qminus;
  absolute := Qabs;
  truediv := Qdiv;
  gt := Qgt_bool
|}.
Proof.
  - intros a b. unfold Qminus, Qplus, Qopp, inject_Z. simpl. f_equal. lia.
  - intros a b c. unfold Qgt_bool.
    destruct (Qlt_le_dec b a), (Qlt_le_dec c b), (Qlt_le_dec c a);
      try discriminate; try reflexivity.
    intros _ _. exfalso.
    apply (Qlt_irrefl a). eapply Qle_lt_trans; [eassumption|].
    eapply Qlt_trans; eassumption.
Defined.

(** [str.lower()] on characters with code points below 256: the capital
    letters A-Z and the capital letters of the Latin-1 supplement move up by
    32, every other character is unchanged. *)
Definition lower_char (c : ascii) : ascii :=
  let n := N_of_ascii c in
  if decide ((65 ≤ n ≤ 90) ∨ (192 ≤ n ≤ 222 ∧ n ≠ 215))%N
  then ascii_of_N (n + 32)
  else c.

Definition lower (text : str) : str := map lower_char text.

(** Iterating over a [str] yields its characters as one-character strings. *)
Definition chars (text : str) : list str := map (λ c, [c]) text.

(** [collections.Counter(iterable)]: the number of occurrences of each
    element, in order of first occurrence. *)
Definition Counter (elems : list str) : dict str Z :=
  foldl (λ counts e, Dict.setitem counts e (Dict.get counts e 0 + 1)) [] elems.

Definition json_suffix : str := list_ascii_of_string ".json".

Section language.
Context {R : Type} `{Number R}.

(** The content of a file of the directory [frequency_tables]: what
    [json.load] returns for it, or [Malformed] when it does not parse. *)
Inductive file : Type :=
| JsonTable (table : dict str R)
| Malformed.

(** The directory [frequency_tables]: file names with their contents, in
    the order [os.listdir] reports them. *)
Definition store : Type := list (str * file).

Definition listdir (st : store) : list str := Dict.keys st.

(** [file_name.endswith('.json')] *)
Definition endswith (file_name suffix : str) : bool :=
  bool_decide (suffix `suffix_of` file_name).

Definition _get_available_languages (st : store) : list str :=
  map (λ file_name, take (length file_name - 5) file_name)
      (filter (λ file_name, endswith file_name json_suffix = true) (listdir st)).

(** [with open(f'frequency_tables/{language}.json', 'r') as fr: load(fr)]:
    the file of that name in the directory ([language] is taken to be a
    plain name, without path separators). *)
Definition open_load (st : store) (language : str) : outcome (dict str R) :=
  match Dict.lookup st (language ++ json_suffix) with
  | None => Raise FileNotFoundError
  | Some (JsonTable table) => Ok table
  | Some Malformed => Raise JSONDecodeError
  end.

(** [x / text_length] *)
Definition div_length (x : R) (text_length : Z) : outcome R :=
  if decide (text_length = 0) then Raise ZeroDivisionError
  else Ok (truediv x (of_int text_length)).

(** The loop [for char, frequency in frequency_table.items()] shared, as
    written twice in the source, by [detect_language] and [is_typical]. *)
Fixpoint accumulate (text_frequency : dict str Z) (text_length : Z)
    (similarity : R) (items : list (str * R)) : outcome R :=
  match items with
  | [] => Ok similarity
  | (char, frequency) :: items' =>
      if Dict.contains text_frequency char then
        term ← div_length
                 (absolute (sub frequency (of_int (Dict.get text_frequency char 0))))
                 text_length;
        accumulate text_frequency text_length (add similarity term) items'
      else accumulate text_frequency text_length similarity items'
  end.

(** [for language in languages: ... frequency_tables[language] = load(fr)] *)
Fixpoint load_tables (st : store) (frequency_tables : dict str (dict str R))
    (languages : list str) : outcome (dict str (dict str R)) :=
  match languages with
  | [] => Ok frequency_tables
  | language :: languages' =>
      table ← open_load st language;
      load_tables st (Dict.setitem frequency_tables language table) languages'
  end.

(** [for language, frequency_table in frequency_tables.items(): ...] *)
Fixpoint score_tables (text_frequency : dict str Z) (text_length : Z)
    (similarities : dict str R) (tables : list (str * dict str R))
    : outcome (dict str R) :=
  match tables with
  | [] => Ok similarities
  | (language, frequency_table) :: tables' =>
      similarity ← accumulate text_frequency text_length (of_int 0)
                     (Dict.items frequency_table);
      score_tables text_frequency text_length
        (Dict.setitem similarities language (sub (of_int 1) similarity)) tables'
  end.

Definition detect_language (st : store) (text : str)
    (languages : option (list str)) : outcome (dict str R) :=
  let languages :=
    match languages with
    | None => _get_available_languages st
    | Some languages => languages
    end in
  frequency_tables ← load_tables st [] languages;
  let text_frequency := Counter (chars (lower text)) in
  let text_length := len text in
  score_tables text_frequency text_length [] (Dict.items frequency_tables).

Definition is_typical (st : store) (text : str) (language : str)
    (threshold : R) : outcome bool :=
  if decide (language ∉ _get_available_languages st) then Raise ValueError
  else
    frequency_table ← open_load st language;
    let text_frequency := Counter (chars (lower text)) in
    let text_length := len text in
    similarity ← accumulate text_frequency text_length (of_int 0)
                   (Dict.items frequency_table);
    Ok (gt (sub (of_int 1) similarity) threshold).

End language.

Arguments file R : clear implicits.
Arguments store R : clear implicits.

(** *** The directory itself

    The functions above read a directory that is there.  The relative path
    [frequency_tables] may also lead nowhere: then [os.listdir] raises
    [FileNotFoundError], and so does every [open]. *)

Section directory.
Context {R : Type} `{Number R}.

Inductive directory : Type :=
| Missing
| Existing (st : store R).

(** The files [open] finds: none under a missing directory. *)
Definition files (dir : directory) : store R :=
  match dir with
  | Missing => []
  | Existing st => st
  end.

(** [os.listdir('frequency_tables')] *)
Definition os_listdir (dir : directory) : outcome (list str) :=
  match dir with
  | Missing => Raise FileNotFoundError
  | Existing st => Ok (listdir st)
  end.

(** [list(_get_available_languages())], from the listing of the directory. *)
Definition available_languages (dir : directory) : outcome (list str) :=
  file_names ← os_listdir dir;
  Ok (map (λ file_name, take (length file_name - 5) file_name)
          (filter (λ file_name, endswith file_name json_suffix = true) file_names)).

(** [detect_language] on the directory as it is found: the languages are
    listed first when none is given, then the tables are loaded and scored
    as above. *)
Definition detect_language_in (dir : directory) (text : str)
    (languages : option (list str)) : outcome (dict str R) :=
  languages ← match languages with
              | None => available_languages dir
              | Some languages => Ok languages
              end;
  detect_language (files dir) text (Some languages).

End directory.

Arguments directory R : clear implicits.

(** ** Vocabulary of the specification *)

(** [sequence] occurs verbatim in [text] at offset [p]. *)
Definition occurs_at (text sequence : str) (p : Z) : Prop :=
  0 ≤ p ∧ p + len sequence ≤ len text
  ∧ slice text p (p + len sequence) = sequence.

(** The offsets the scan of [find_repeat_sequences] visits for a sequence
    of this length, restricted to those where the sequence occurs. *)
Definition scanned_positions (text sequence : str) : list Z :=
  filter (λ i, slice text i (i + len sequence) = sequence)
         (range 0 (len text - len sequence)).

(** A language name that is a plain file name: it holds no path separator
    and no NUL character, so that [frequency_tables/{language}.json] names
    an entry of the directory. *)
Definition path_separator : ascii := "/"%char.
Definition plain_name (language : str) : Prop :=
  (path_separator ∉ language) ∧ (Ascii.zero ∉ language).

(** A list of offsets is strictly increasing. *)
Definition strictly_increasing (positions : list Z) : Prop :=
  StronglySorted Z.lt positions.

(** Divisibility of integers is decidable, through the remainder. *)
#[global] Instance Z_divide_dec : RelDecision Z.divide.
Proof.
  refine (λ f d, cast_if (decide (d `mod` f = 0))).
  - destruct (decide (f = 0)) as [->|Hf].
    + rewrite Z.mod_0_r in *. subst. apply Z.divide_0_r.
    + by apply Z.mod_divide.
  - destruct (decide (f = 0)) as [->|Hf].
    + rewrite Z.mod_0_r in *. intros Hd. by apply Z.divide_0_l in Hd.
    + intros Hd. by apply Z.mod_divide in Hd.
Defined.

(** The number of spacings that [f] divides. *)
Definition votes (f : Z) (spaces : list Z) : Z :=
  len (filter (λ d, (f | d)) spaces).

(** The elements of a list in order of first occurrence. *)
Fixpoint first_occurrences (l : list Z) : list Z :=
  match l with
  | [] => []
  | x :: l' => x :: filter (λ y, y ≠ x) (first_occurrences l')
  end.

(** The counts of a ranking never increase. *)
Definition counts_non_increasing (ranking : list (Z * Z)) : Prop :=
  StronglySorted (λ x y, y.2 ≤ x.2) ranking.

(** What appending to a dictionary of lists does to one entry: [new] is
    appended to the list already there, and an entry is created when
    something is appended to none. *)
Definition extend_entry (old : option (list Z)) (new : list Z) : option (list Z) :=
  match old with
  | Some positions => Some (positions ++ new)
  | None => match new with [] => None | _ => Some new end
  end.

(** One spacing less than offsets, summed over the entries. *)
Definition spacing_count (sequences : list (str * list Z)) : Z :=
  foldr (λ kv total, (len kv.2 - 1) + total) 0 sequences.

(** The set [find_factors] returns, for a number it accepts. *)
Definition factor_set (number : Z) : gset Z :=
  match find_factors number with
  | Ok factors => factors
  | _ => ∅
  end.

(** ** Concrete inputs *)

Definition text_ababab : str := list_ascii_of_string "ababab".
Definition text_abcabcab : str := list_ascii_of_string "abcabcab".
Definition seq_ab : str := list_ascii_of_string "ab".
Definition seq_ba : str := list_ascii_of_string "ba".
Definition seq_aba : str := list_ascii_of_string "aba".
Definition text_aaaaaaaa : str := list_ascii_of_string "aaaaaaaa".
Definition text_abcdXXXX : str := list_ascii_of_string "abcdXXXX".

Definition english : str := list_ascii_of_string "english".
Definition klingon : str := list_ascii_of_string "klingon".
Definition broken : str := list_ascii_of_string "broken".
Definition text_tee : str := list_ascii_of_string "Tee".
Definition text_xyz : str := list_ascii_of_string "xyz".

Definition english_table : list (str * Q) :=
  [(list_ascii_of_string "e", (1 # 8)%Q); (list_ascii_of_string "t", (1 # 10)%Q)].

Definition demo_store : store Q :=
  [(list_ascii_of_string "english.json", JsonTable english_table);
   (list_ascii_of_string "notes.txt", Malformed);
   (list_ascii_of_string "broken.json", Malformed)].

(** * Facts about dictionaries *)

Section dict_facts.
Context {K V : Type} `{EqDecision K}.
Implicit Types (d : list (K * V)) (k : K) (v : V).

Lemma lookup_setitem d k v k' :
  Dict.lookup (Dict.setitem d k v) k'
  = if decide (k' = k) then Some v else Dict.lookup d k'.
Proof.
  induction d as [|[k0 v0] d IH]; simpl.
  - repeat case_decide; congruence.
  - destruct (decide (k = k0)) as [->|Hne]; simpl.
    + repeat case_decide; congruence.
    + rewrite IH. repeat case_decide; congruence.
Qed.

Lemma lookup_None_keys d k : Dict.lookup d k = None ↔ k ∉ Dict.keys d.
Proof.
  unfold Dict.keys. induction d as [|[k0 v0] d IH]; simpl.
  - split; [intros _; apply not_elem_of_nil|done].
  - rewrite not_elem_of_cons. case_decide; subst.
    + split; [done|]. intros [? _]. done.
    + rewrite IH. tauto.
Qed.

Lemma lookup_Some_elem_of d k v : Dict.lookup d k = Some v → (k, v) ∈ d.
Proof.
  induction d as [|[k0 v0] d IH]; simpl; [done|].
  case_decide; subst.
  - intros [= ->]. left.
  - intros. right. auto.
Qed.

Lemma elem_of_lookup_Some d k v :
  NoDup (Dict.keys d) → (k, v) ∈ d → Dict.lookup d k = Some v.
Proof.
  unfold Dict.keys. induction d as [|[k0 v0] d IH]; simpl.
  - intros _ Hin. by apply elem_of_nil in Hin.
  - rewrite NoDup_cons. intros [Hk0 Hnd] Hin.
    apply elem_of_cons in Hin as [[= -> ->]|Hin].
    + case_decide; congruence.
    + case_decide; subst; [|by apply IH].
      exfalso. apply Hk0. apply (list_elem_of_fmap_2 fst _ _ Hin).
Qed.

Lemma keys_setitem d k v :
  Dict.keys (Dict.setitem d k v)
  = if decide (k ∈ Dict.keys d) then Dict.keys d else Dict.keys d ++ [k].
Proof.
  unfold Dict.keys. induction d as [|[k0 v0] d IH].
  - destruct (decide (k ∈ map fst [])) as [Hin|_]; [|done].
    by apply elem_of_nil in Hin.
  - cbn [Dict.setitem]. destruct (decide (k = k0)) as [->|Hne].
    + destruct (decide (k0 ∈ map fst ((k0, v0) :: d))) as [_|Hnin]; [done|].
      exfalso. apply Hnin. left.
    + cbn [map fst]. rewrite IH.
      destruct (decide (k ∈ map fst d)) as [Hin|Hnin];
        destruct (decide (k ∈ k0 :: map fst d)) as [Hin'|Hnin']; try done.
      * exfalso. apply Hnin'. by right.
      * apply elem_of_cons in Hin' as [?|?]; done.
Qed.

Lemma NoDup_keys_setitem d k v :
  NoDup (Dict.keys d) → NoDup (Dict.keys (Dict.setitem d k v)).
Proof.
  intros Hnd. rewrite keys_setitem. case_decide; [done|].
  apply NoDup_app. split_and!; [done| |apply NoDup_singleton].
  intros x Hx Hx'. apply list_elem_of_singleton in Hx'. by subst.
Qed.

Lemma NoDup_keys_filter (P : K * V → Prop) `{∀ x, Decision (P x)} d :
  NoDup (Dict.keys d) → NoDup (Dict.keys (filter P d)).
Proof.
  unfold Dict.keys. induction d as [|[k0 v0] d IH]; simpl; [done|].
  rewrite NoDup_cons. intros [Hk0 Hnd].
  rewrite filter_cons. case_decide; simpl; [|by apply IH].
  apply NoDup_cons. split; [|by apply IH].
  intros Hin. apply Hk0.
  apply list_elem_of_fmap in Hin as [[k1 v1] [-> Hin]].
  apply list_elem_of_filter in Hin as [_ Hin].
  apply (list_elem_of_fmap_2 fst _ _ Hin).
Qed.

End dict_facts.

(** * Facts about lists *)

Section list_facts.
Context {A : Type}.

Lemma filter_none (P : A → Prop) `{∀ x, Decision (P x)} (l : list A) :
  (∀ x, x ∈ l → ¬ P x) → filter P l = [].
Proof.
  induction l as [|x l IH]; intros Hl; [done|].
  rewrite filter_cons, decide_False by (apply Hl; left).
  apply IH. intros y Hy. apply Hl. by right.
Qed.

Lemma StronglySorted_filter (Rel : relation A) (P : A → Prop)
    `{∀ x, Decision (P x)} (l : list A) :
  StronglySorted Rel l → StronglySorted Rel (filter P l).
Proof.
  induction 1 as [|x l Hl IH Hx]; [constructor|].
  rewrite filter_cons. case_decide; [|done].
  constructor; [done|].
  apply Forall_forall. intros y Hy. apply list_elem_of_filter in Hy as [_ Hy].
  rewrite Forall_forall in Hx. by apply Hx.
Qed.

Lemma flat_map_single (f : Z → list A) (c : Z) (l : list Z) :
  NoDup l → (∀ x, x ∈ l → x ≠ c → f x = []) →
  flat_map f l = if decide (c ∈ l) then f c else [].
Proof.
  induction l as [|x l IH]; intros Hnd Hf.
  - by rewrite decide_False by apply not_elem_of_nil.
  - apply NoDup_cons in Hnd as [Hx Hnd]. cbn [flat_map].
    rewrite IH by (try done; intros y Hy; apply Hf; by right).
    destruct (decide (x = c)) as [->|Hne].
    + rewrite (decide_False (P := c ∈ l)) by done.
      rewrite (decide_True (P := c ∈ c :: l)) by left.
      by rewrite app_nil_r.
    + rewrite (Hf x) by (done || left). simpl.
      destruct (decide (c ∈ l)) as [Hin|Hnin].
      * by rewrite decide_True by by right.
      * rewrite decide_False; [done|]. rewrite not_elem_of_cons. done.
Qed.

End list_facts.

Lemma StronglySorted_seqZ (m n : Z) : StronglySorted Z.lt (seqZ m n).
Proof.
  destruct (decide (0 ≤ n)) as [Hn|Hn]; [|rewrite seqZ_nil by lia; constructor].
  rewrite <- (Z2Nat.id n) by done. generalize (Z.to_nat n) as k. clear.
  intros k. revert m. induction k as [|k IH]; intros m.
  - rewrite seqZ_nil by lia. constructor.
  - rewrite seqZ_cons by lia. constructor.
    + replace (Z.pred (Z.of_nat (S k))) with (Z.of_nat k) by lia. apply IH.
    + apply Forall_forall. intros x Hx. apply elem_of_seqZ in Hx. lia.
Qed.

Lemma len_nonneg {A : Type} (l : list A) : 0 ≤ len l.
Proof. unfold len. lia. Qed.

Lemma len_slice {A : Type} (text : list A) (i L : Z) :
  0 ≤ i → 0 ≤ L → i + L ≤ len text → len (slice text i (i + L)) = L.
Proof.
  unfold len, slice. intros Hi HL Hn.
  rewrite length_take, length_drop. lia.
Qed.

(** * find_repeat_sequences: what the scan records *)

Section repeat_sequences.
Implicit Types (text s : str) (d : list (str * list Z)).

Lemma extend_entry_app old a b :
  extend_entry (extend_entry old a) b = extend_entry old (a ++ b).
Proof.
  destruct old as [ps|], a as [|x a]; simpl; try done.
  - by rewrite app_nil_r.
  - by rewrite <- app_assoc.
Qed.

Lemma lookup_record_occurrence text L d i s :
  Dict.lookup (record_occurrence text L d i) s
  = extend_entry (Dict.lookup d s)
      (if decide (slice text i (i + L) = s) then [i] else []).
Proof.
  unfold record_occurrence.
  destruct (Dict.lookup d (slice text i (i + L))) as [ps|] eqn:Hd;
    rewrite lookup_setitem;
    destruct (decide (s = slice text i (i + L))) as [->|Hne].
  - rewrite decide_True by done. by rewrite Hd.
  - rewrite decide_False by done. destruct (Dict.lookup d s); simpl; [|done].
    by rewrite app_nil_r.
  - rewrite decide_True by done. by rewrite Hd.
  - rewrite decide_False by done. destruct (Dict.lookup d s); simpl; [|done].
    by rewrite app_nil_r.
Qed.

Lemma lookup_scan_offsets text L offsets d s :
  Dict.lookup (foldl (record_occurrence text L) d offsets) s
  = extend_entry (Dict.lookup d s)
      (filter (λ i, slice text i (i + L) = s) offsets).
Proof.
  revert d. induction offsets as [|i offsets IH]; intros d; simpl.
  - destruct (Dict.lookup d s); simpl; [|done]. by rewrite app_nil_r.
  - rewrite IH, lookup_record_occurrence, extend_entry_app, filter_cons.
    by case_decide.
Qed.

Lemma lookup_scan_lengths text lengths d s :
  Dict.lookup (foldl (scan_length text) d lengths) s
  = extend_entry (Dict.lookup d s)
      (flat_map (λ L, filter (λ i, slice text i (i + L) = s)
                             (range 0 (len text - L))) lengths).
Proof.
  revert d. induction lengths as [|L lengths IH]; intros d; cbn [foldl flat_map].
  - destruct (Dict.lookup d s); simpl; [|done]. by rewrite app_nil_r.
  - rewrite IH. unfold scan_length.
    by rewrite lookup_scan_offsets, extend_entry_app.
Qed.

Lemma filter_other_length text L s :
  0 ≤ L → L ≠ len s →
  filter (λ i, slice text i (i + L) = s) (range 0 (len text - L)) = [].
Proof.
  intros HL Hne. apply filter_none. intros i Hi Heq.
  apply elem_of_seqZ in Hi. apply Hne. rewrite <- Heq.
  symmetry. apply len_slice; lia.
Qed.

Lemma lookup_scan_text text min_length s :
  0 ≤ min_length →
  Dict.lookup (scan_text text min_length) s
  = if decide (min_length ≤ len s ≤ len text `div` 2)
    then extend_entry None (scanned_positions text s)
    else None.
Proof.
  intros Hm. unfold scan_text. rewrite lookup_scan_lengths. simpl.
  rewrite (flat_map_single _ (len s)).
  - unfold range at 1. destruct (decide (len s ∈ _)) as [Hin|Hnin];
      rewrite elem_of_seqZ in *.
    + rewrite decide_True by lia. done.
    + rewrite decide_False by lia. done.
  - apply NoDup_seqZ.
  - intros L HL Hne. apply elem_of_seqZ in HL.
    apply filter_other_length; lia.
Qed.

Lemma NoDup_keys_record_occurrence text L d i :
  NoDup (Dict.keys d) → NoDup (Dict.keys (record_occurrence text L d i)).
Proof.
  intros Hd. unfold record_occurrence.
  destruct (Dict.lookup d _); by apply NoDup_keys_setitem.
Qed.

Lemma NoDup_keys_scan_length text L d :
  NoDup (Dict.keys d) → NoDup (Dict.keys (scan_length text d L)).
Proof.
  unfold scan_length. generalize (range 0 (len text - L)) as offsets.
  intros offsets. revert d.
  induction offsets as [|i offsets IH]; intros d Hd; simpl; [done|].
  by apply IH, NoDup_keys_record_occurrence.
Qed.

Lemma NoDup_keys_scan_text text min_length :
  NoDup (Dict.keys (scan_text text min_length)).
Proof.
  unfold scan_text. generalize (range min_length (len text `div` 2 + 1)).
  assert (NoDup (Dict.keys ([] : list (str * list Z)))) as Hnil by constructor.
  revert Hnil. generalize ([] : list (str * list Z)) as d.
  intros d Hd lengths. revert d Hd.
  induction lengths as [|L lengths IH]; intros d Hd; simpl; [done|].
  by apply IH, NoDup_keys_scan_length.
Qed.

Lemma elem_of_scanned_positions text s p :
  p ∈ scanned_positions text s
  ↔ 0 ≤ p < len text - len s ∧ slice text p (p + len s) = s.
Proof.
  unfold scanned_positions, range.
  rewrite list_elem_of_filter, elem_of_seqZ. intuition lia.
Qed.

Lemma scanned_positions_occurs text s p :
  p ∈ scanned_positions text s ↔ occurs_at text s p ∧ p < len text - len s.
Proof.
  rewrite elem_of_scanned_positions. unfold occurs_at. intuition lia.
Qed.

Lemma scanned_positions_increasing text s :
  strictly_increasing (scanned_positions text s).
Proof. apply StronglySorted_filter, StronglySorted_seqZ. Qed.

Lemma find_repeat_sequences_Ok text min_length :
  2 ≤ min_length < len text `div` 2 →
  find_repeat_sequences text min_length
  = Ok (filter (λ kv, 1 < len kv.2) (scan_text text min_length)).
Proof.
  intros Hm. unfold find_repeat_sequences. rewrite decide_False by lia. done.
Qed.

Lemma find_repeat_sequences_pre text min_length d :
  find_repeat_sequences text min_length = Ok d →
  2 ≤ min_length < len text `div` 2.
Proof.
  unfold find_repeat_sequences. case_decide; [done|]. intros _. lia.
Qed.

(** The entries of the returned dictionary: the sequences whose length is
    within the scanned range and that the scan met at two offsets or more,
    each with the offsets where the scan met it. *)
Lemma find_repeat_sequences_entries text min_length d s ps :
  find_repeat_sequences text min_length = Ok d →
  (s, ps) ∈ Dict.items d
  ↔ min_length ≤ len s ≤ len text `div` 2
    ∧ ps = scanned_positions text s ∧ 1 < len ps.
Proof.
  intros Hd. pose proof (find_repeat_sequences_pre _ _ _ Hd) as Hm.
  rewrite find_repeat_sequences_Ok in Hd by done. injection Hd as <-.
  pose proof (NoDup_keys_scan_text text min_length) as Hnd.
  unfold Dict.items. split.
  - intros Hin. apply list_elem_of_filter in Hin as [Hlen Hin]. simpl in Hlen.
    apply elem_of_lookup_Some in Hin; [|done].
    rewrite lookup_scan_text in Hin by lia.
    case_decide; [|done].
    destruct (scanned_positions text s) eqn:Hsp; simpl in Hin; [done|].
    injection Hin as <-. done.
  - intros (Hlen & -> & Hps). apply list_elem_of_filter. split; [done|].
    apply lookup_Some_elem_of. rewrite lookup_scan_text by lia.
    rewrite decide_True by done.
    destruct (scanned_positions text s); [done|done].
Qed.

Lemma find_repeat_sequences_NoDup text min_length d :
  find_repeat_sequences text min_length = Ok d → NoDup (Dict.keys d).
Proof.
  intros Hd. pose proof (find_repeat_sequences_pre _ _ _ Hd) as Hm.
  rewrite find_repeat_sequences_Ok in Hd by done. injection Hd as <-.
  apply NoDup_keys_filter, NoDup_keys_scan_text.
Qed.

(** * Claims about find_repeat_sequences *)

(** C1, evaluated where it fails: on the text "ababab" with [min_length = 2]
    the returned dictionary lists the offsets 0 and 2 for the key "ab", yet
    "ab" also occurs verbatim at offset 4, the last window of that length,
    which [range(len(text) - length)] never visits. *)
Theorem find_repeat_sequences_misses_last_window :
  find_repeat_sequences text_ababab 2
  = Ok [(seq_ab, [0; 2]); (seq_ba, [1; 3]); (seq_aba, [0; 2])]
  ∧ 2 ≤ 2 < len text_ababab `div` 2
  ∧ occurs_at text_ababab seq_ab 4
  ∧ 4 ∉ [0; 2].
Proof.
  split; [by vm_compute|]. split; [by vm_compute|]. split.
  - unfold occurs_at. by vm_compute.
  - intros Hin. apply elem_of_cons in Hin as [?|Hin]; [done|].
    apply elem_of_cons in Hin as [?|Hin]; [done|]. by apply elem_of_nil in Hin.
Qed.

(** X1: what does hold of every entry of the returned dictionary: the listed
    offsets are exactly the offsets below [len(text) - len(sequence)] where
    the sequence occurs verbatim. *)
Theorem find_repeat_sequences_offsets text min_length d s ps :
  find_repeat_sequences text min_length = Ok d →
  (s, ps) ∈ Dict.items d →
  ∀ p, p ∈ ps ↔ occurs_at text s p ∧ p < len text - len s.
Proof.
  intros Hd Hin p.
  apply (find_repeat_sequences_entries _ _ _ _ _ Hd) in Hin as (_ & -> & _).
  apply scanned_positions_occurs.
Qed.

Lemma find_repeat_sequences_offsets_witness :
  2 ∈ [0; 2] ↔ occurs_at text_ababab seq_ab 2 ∧ 2 < len text_ababab - len seq_ab.
Proof.
  apply (find_repeat_sequences_offsets text_ababab 2
           [(seq_ab, [0; 2]); (seq_ba, [1; 3]); (seq_aba, [0; 2])] seq_ab [0; 2]).
  - by vm_compute.
  - left.
Defined.

(** C4: [find_repeat_sequences] raises [ValueError] exactly when
    [min_length < 2] or [min_length >= len(text) // 2]; it raises nothing
    else, and under the precondition it returns a dictionary. *)
Theorem find_repeat_sequences_raises_iff text min_length :
  (find_repeat_sequences text min_length = Raise ValueError
   ↔ min_length < 2 ∨ min_length >= len text `div` 2)
  ∧ (∀ e, find_repeat_sequences text min_length = Raise e → e = ValueError)
  ∧ find_repeat_sequences text min_length ≠ OutOfFuel
  ∧ ((∃ d, find_repeat_sequences text min_length = Ok d)
     ↔ 2 ≤ min_length < len text `div` 2).
Proof.
  unfold find_repeat_sequences.
  destruct (decide (min_length < 2 ∨ min_length >= len text `div` 2)) as [Hbad|Hok].
  - split_and!; try done.
    + by intros e [= <-].
    + split; [by intros [d ?]|lia].
  - split_and!; try done.
    split; [intros _; lia|eauto].
Qed.

(** C5: under the precondition the returned dictionary satisfies the
    invariant of the data model: its keys are pairwise distinct, every key
    has a length between [min_length] and [len(text) // 2], at least two
    offsets are listed for it, and they are strictly increasing and lie in
    [0, len(text) - len(key)). *)
Theorem find_repeat_sequences_invariant text min_length :
  2 ≤ min_length < len text `div` 2 →
  ∃ d, find_repeat_sequences text min_length = Ok d
       ∧ NoDup (Dict.keys d)
       ∧ ∀ s ps, (s, ps) ∈ Dict.items d →
           min_length ≤ len s ≤ len text `div` 2
           ∧ 2 ≤ len ps
           ∧ strictly_increasing ps
           ∧ ∀ p, p ∈ ps → 0 ≤ p < len text - len s.
Proof.
  intros Hm. eexists. split; [by apply find_repeat_sequences_Ok|].
  pose proof (find_repeat_sequences_Ok text min_length Hm) as Hd.
  split; [by eapply find_repeat_sequences_NoDup|].
  intros s ps Hin.
  apply (find_repeat_sequences_entries _ _ _ _ _ Hd) in Hin as (Hlen & -> & Hps).
  split_and!; try lia.
  - apply scanned_positions_increasing.
  - intros p Hp. apply elem_of_scanned_positions in Hp. lia.
Qed.

Lemma find_repeat_sequences_invariant_witness :
  ∃ d, find_repeat_sequences text_abcabcab 2 = Ok d
       ∧ NoDup (Dict.keys d)
       ∧ ∀ s ps, (s, ps) ∈ Dict.items d →
           2 ≤ len s ≤ len text_abcabcab `div` 2
           ∧ 2 ≤ len ps
           ∧ strictly_increasing ps
           ∧ ∀ p, p ∈ ps → 0 ≤ p < len text_abcabcab - len s.
Proof.
  apply (find_repeat_sequences_invariant text_abcabcab 2). by vm_compute.
Defined.

End repeat_sequences.

(** * find_factors *)

Lemma find_factors_loop_terminates fuel number i factors :
  1 ≤ i → (0 < fuel)%nat → number < i + Z.of_nat fuel - 1 →
  is_Some (find_factors_loop fuel number i factors).
Proof.
  revert i factors. induction fuel as [|fuel IH]; intros i factors Hi Hfuel Hn.
  - lia.
  - cbn [find_factors_loop]. case_decide as Hii; [|by eexists].
    apply IH; [lia|nia|lia].
Qed.

Lemma find_factors_loop_spec fuel number i factors result :
  0 ≤ i →
  find_factors_loop fuel number i factors = Some result →
  ∀ d, d ∈ result
       ↔ d ∈ factors
         ∨ ∃ j, i ≤ j ∧ j * j ≤ number ∧ number `mod` j = 0
                ∧ (d = j ∨ d = number `div` j).
Proof.
  revert i factors. induction fuel as [|fuel IH]; intros i factors Hi; [done|].
  cbn [find_factors_loop]. case_decide as Hii.
  - intros Hloop d. rewrite (IH (i + 1) _ ltac:(lia) Hloop d). clear IH Hloop.
    split.
    + intros [Hd|(j & Hj & Hjj & Hmod & Hd)].
      * case_decide as Hmod; [|by left].
        apply elem_of_union in Hd as [Hd|Hd].
        { apply elem_of_singleton in Hd. right. exists i.
          split_and!; [lia|done|done|by right]. }
        apply elem_of_union in Hd as [Hd|Hd]; [|by left].
        apply elem_of_singleton in Hd. right. exists i.
        split_and!; [lia|done|done|by left].
      * right. exists j. split_and!; [lia|done..].
    + intros [Hd|(j & Hj & Hjj & Hmod & Hd)].
      * left. case_decide; [|done]. set_solver.
      * destruct (decide (j = i)) as [->|Hne].
        -- left. rewrite decide_True by done.
           rewrite !elem_of_union, !elem_of_singleton. tauto.
        -- right. exists j. split_and!; [lia|done..].
  - intros [= <-] d. split; [by left|].
    intros [Hd|(j & Hj & Hjj & _)]; [done|]. nia.
Qed.

Lemma find_factors_spec number :
  1 < number →
  ∃ factors, find_factors number = Ok factors
             ∧ ∀ d, d ∈ factors ↔ 1 < d ∧ (d | number).
Proof.
  intros Hn. unfold find_factors. rewrite decide_False by lia.
  destruct (find_factors_loop_terminates (Z.to_nat number) number 2 ∅)
    as [result Hloop]; [lia..|].
  rewrite Hloop. eexists. split; [done|]. intros d.
  rewrite elem_of_union, elem_of_singleton.
  rewrite (find_factors_loop_spec _ number 2 ∅ result ltac:(lia) Hloop d).
  split.
  - intros [->|[Hd|(j & Hj & Hjj & Hmod & Hd)]].
    + split; [done|]. reflexivity.
    + by apply not_elem_of_empty in Hd.
    + apply Z.mod_divide in Hmod as [q Hq]; [|lia].
      assert (number `div` j = q) as Hdiv.
      { rewrite Hq. apply Z.div_mul. lia. }
      destruct Hd as [->| ->].
      * split; [lia|]. by exists q.
      * rewrite Hdiv. split; [nia|]. exists j. lia.
  - intros [Hd [e He]].
    destruct (decide (d = number)) as [->|Hne]; [by left|]. right. right.
    assert (2 ≤ e) as He2.
    { destruct (decide (e ≤ 0)); [nia|].
      destruct (decide (e = 1)) as [->|]; lia. }
    destruct (decide (d * d ≤ number)) as [Hdd|Hdd].
    + exists d. split_and!; auto; try lia.
      apply Z.mod_divide; [lia|]. by exists e.
    + exists e. split_and!; try nia.
      * apply Z.mod_divide; [lia|]. exists d. lia.
      * right. rewrite He, Z.mul_comm. symmetry. apply Z.div_mul. lia.
Qed.

Lemma find_factors_raises number :
  number ≤ 1 → find_factors number = Raise ValueError.
Proof. intros Hn. unfold find_factors. by rewrite decide_True. Qed.

(** C2: for [number > 1], [find_factors] returns the set of the divisors of
    [number] that are greater than 1, [number] among them; for a prime the
    set is the singleton of the prime; and [find_factors(12)] is
    {2, 3, 4, 6, 12}. *)
Theorem find_factors_divisors :
  (∀ number, 1 < number →
     ∃ factors, find_factors number = Ok factors
                ∧ (∀ d, d ∈ factors ↔ 1 < d ∧ (d | number))
                ∧ number ∈ factors)
  ∧ (∀ p, Z.prime p → find_factors p = Ok {[p]})
  ∧ find_factors 12 = Ok {[2; 3; 4; 6; 12]}.
Proof.
  split_and!.
  - intros number Hn. destruct (find_factors_spec number Hn) as (fs & Hfs & Hd).
    exists fs. split_and!; [done..|]. apply Hd. split; [lia|reflexivity].
  - intros p Hp. pose proof (Z.prime_ge_2 p Hp) as Hp2.
    destruct (find_factors_spec p ltac:(lia)) as (fs & -> & Hd).
    f_equal. apply set_eq. intros d. rewrite Hd, elem_of_singleton. split.
    + intros [Hd1 Hdiv]. apply (Z.divide_prime_r d p Hp) in Hdiv. lia.
    + intros ->. split; [lia|reflexivity].
  - by vm_compute.
Qed.

Lemma find_factors_divisors_witness :
  (∃ factors, find_factors 12 = Ok factors
              ∧ (∀ d, d ∈ factors ↔ 1 < d ∧ (d | 12))
              ∧ 12 ∈ factors)
  ∧ find_factors 3 = Ok {[3]}.
Proof.
  split.
  - apply (proj1 find_factors_divisors 12). lia.
  - apply (proj1 (proj2 find_factors_divisors) 3). apply Z.prime_3.
Defined.

(** * get_spaces *)

Lemma foldl_snoc_map {A B : Type} (g : B → A) (l : list B) (acc : list A) :
  foldl (λ acc x, acc ++ [g x]) acc l = acc ++ map g l.
Proof.
  revert acc. induction l as [|x l IH]; intros acc; simpl.
  - by rewrite app_nil_r.
  - by rewrite IH, <- app_assoc.
Qed.

Lemma foldl_app_flat_map {A B : Type} (h : list A → B → list A)
    (g : B → list A) (l : list B) (acc : list A) :
  (∀ acc x, h acc x = acc ++ g x) →
  foldl h acc l = acc ++ flat_map g l.
Proof.
  intros Hh. revert acc. induction l as [|x l IH]; intros acc; simpl.
  - by rewrite app_nil_r.
  - by rewrite IH, Hh, <- app_assoc.
Qed.

(** The spacings one list of offsets contributes. *)
Lemma get_spaces_flat_map (sequences : list (str * list Z)) :
  get_spaces sequences
  = flat_map (λ positions,
                map (λ i, item positions (i + 1) - item positions i)
                    (range 0 (len positions - 1)))
             (Dict.values sequences).
Proof.
  unfold get_spaces. rewrite (foldl_app_flat_map _
    (λ positions, map (λ i, item positions (i + 1) - item positions i)
                      (range 0 (len positions - 1)))); [done|].
  intros acc positions. apply foldl_snoc_map.
Qed.

Lemma item_app_r (l1 l2 : list Z) (i : Z) :
  len l1 ≤ i → item (l1 ++ l2) i = item l2 (i - len l1).
Proof.
  unfold item, len. intros Hi.
  rewrite app_nth2 by lia. f_equal. lia.
Qed.

Lemma get_spaces_adjacent (sequences : list (str * list Z)) s l1 p q l2 :
  (s, l1 ++ p :: q :: l2) ∈ sequences → q - p ∈ get_spaces sequences.
Proof.
  intros Hin. rewrite get_spaces_flat_map.
  apply list_elem_of_In, in_flat_map. exists (l1 ++ p :: q :: l2). split.
  - apply list_elem_of_In. unfold Dict.values.
    apply (list_elem_of_fmap_2 snd _ _ Hin).
  - apply list_elem_of_In, list_elem_of_fmap. exists (len l1). split.
    + rewrite !item_app_r by lia.
      replace (len l1 + 1 - len l1) with 1 by lia.
      replace (len l1 - len l1) with 0 by lia. done.
    + apply elem_of_seqZ. unfold len. rewrite length_app. simpl. lia.
Qed.

(** X2: [get_spaces] yields one spacing less than there are offsets, for
    every entry that lists an offset; none for entries with one offset. *)
Theorem get_spaces_count (sequences : list (str * list Z)) :
  Forall (λ kv, 1 ≤ len kv.2) sequences →
  len (get_spaces sequences) = spacing_count sequences.
Proof.
  rewrite get_spaces_flat_map. unfold Dict.values, len.
  induction 1 as [|[s ps] sequences Hps Hall IH]; [done|].
  cbn [map flat_map spacing_count foldr snd] in *.
  fold (spacing_count sequences).
  rewrite length_app, length_map, Nat2Z.inj_add, IH.
  unfold range. rewrite length_seqZ. unfold len in *. simpl in Hps. lia.
Qed.

Lemma get_spaces_count_witness :
  len (get_spaces [(seq_ab, [0; 2; 4]); (seq_ba, [1])]) = 2.
Proof.
  apply (get_spaces_count [(seq_ab, [0; 2; 4]); (seq_ba, [1])]).
  repeat constructor; by vm_compute.
Defined.

Lemma increasing_adjacent (positions : list Z) (p : Z) :
  strictly_increasing positions → p ∈ positions → p + 1 ∈ positions →
  ∃ l1 l2, positions = l1 ++ p :: (p + 1) :: l2.
Proof.
  intros Hs Hp Hq.
  apply list_elem_of_split in Hp as (l1 & rest & ->).
  apply StronglySorted_app in Hs as (Hlt & Hl1 & Hrest).
  apply StronglySorted_cons in Hrest as [Hp Hrest].
  exists l1. apply elem_of_app in Hq as [Hq|Hq].
  { specialize (Hlt _ p Hq ltac:(left)). lia. }
  apply elem_of_cons in Hq as [Hq|Hq]; [lia|].
  destruct rest as [|x l2]; [by apply elem_of_nil in Hq|].
  exists l2. assert (x = p + 1) as ->; [|done].
  apply Forall_cons in Hp as [Hx _].
  apply StronglySorted_cons in Hrest as [Hl2 _].
  apply elem_of_cons in Hq as [Hq|Hq]; [done|].
  rewrite Forall_forall in Hl2. specialize (Hl2 _ Hq). lia.
Qed.

(** * find_key_lengths: when it raises *)

Section key_lengths_raise.
Variable set_iter : gset Z → list Z.

Lemma collect_factors_raises factors spaces x :
  x ∈ spaces → x ≤ 1 →
  collect_factors set_iter factors spaces = Raise ValueError.
Proof.
  intros Hin Hx. revert factors.
  induction spaces as [|distance spaces IH]; intros factors.
  { by apply elem_of_nil in Hin. }
  cbn [collect_factors].
  destruct (decide (distance ≤ 1)) as [Hd|Hd].
  - by rewrite find_factors_raises.
  - destruct (find_factors_spec distance ltac:(lia)) as (fs & -> & _). simpl.
    apply IH. apply elem_of_cons in Hin as [->|Hin]; [lia|done].
Qed.

Lemma find_key_lengths_raises spaces n x :
  x ∈ spaces → x ≤ 1 →
  find_key_lengths set_iter spaces n = Raise ValueError.
Proof.
  intros Hin Hx. unfold find_key_lengths.
  by rewrite (collect_factors_raises _ _ x).
Qed.

End key_lengths_raise.

Lemma occurs_at_prefix (text s : str) (p k : Z) :
  0 ≤ k ≤ len s → occurs_at text s p → occurs_at text (take (Z.to_nat k) s) p.
Proof.
  unfold occurs_at, slice, len. intros Hk (Hp & Hend & Hs).
  rewrite length_take. split_and!; [lia..|].
  replace (p + Z.of_nat (Z.to_nat k `min` length s) - p) with k by lia.
  rewrite <- Hs at 1. rewrite take_take. f_equal. lia.
Qed.

(** C9: the pipeline
    [find_key_lengths(get_spaces(find_repeat_sequences(text)), n)] is not
    total on texts that satisfy the precondition of [find_repeat_sequences]:
    on "aaaaaaaa" with the default [min_length] it raises [ValueError],
    whatever [n] and the iteration order of sets; and so it does for every
    text in which a sequence of length [min_length] or more occurs at two
    adjacent offsets [p] and [p + 1], the second of them before the last
    window of length [min_length] (which the scan does not visit), because
    [get_spaces] then yields the spacing 1. *)
Theorem key_lengths_of_text_not_total :
  (∀ set_iter n,
     2 ≤ default_min_length < len text_aaaaaaaa `div` 2
     ∧ key_lengths_of_text set_iter text_aaaaaaaa default_min_length n
       = Raise ValueError)
  ∧ (∀ set_iter n text min_length s p,
       2 ≤ min_length < len text `div` 2 →
       min_length ≤ len s →
       occurs_at text s p → occurs_at text s (p + 1) →
       p + 1 < len text - min_length →
       ∃ sequences,
         find_repeat_sequences text min_length = Ok sequences
         ∧ 1 ∈ get_spaces sequences
         ∧ key_lengths_of_text set_iter text min_length n = Raise ValueError).
Proof.
  split.
  - intros set_iter n. split; [by vm_compute|].
    unfold key_lengths_of_text.
    assert (∃ sequences,
              find_repeat_sequences text_aaaaaaaa default_min_length = Ok sequences
              ∧ 1 ∈ get_spaces sequences) as (sequences & -> & Hone).
    { eexists. split; [by vm_compute|]. vm_compute. left. }
    simpl. by apply (find_key_lengths_raises _ _ _ 1).
  - intros set_iter n text min_length s0 p Hm Hlen0 Hp0 Hq0 Hlast.
    pose proof (find_repeat_sequences_Ok text min_length Hm) as Hd.
    eexists. split; [done|].
    set (s := take (Z.to_nat min_length) s0).
    assert (len s = min_length) as Hlen.
    { unfold s, len in *. rewrite length_take. lia. }
    assert (occurs_at text s p) as Hp by (apply occurs_at_prefix; [lia|done]).
    assert (occurs_at text s (p + 1)) as Hq by (apply occurs_at_prefix; [lia|done]).
    assert (p ∈ scanned_positions text s) as Hp'.
    { apply scanned_positions_occurs. split; [done|lia]. }
    assert (p + 1 ∈ scanned_positions text s) as Hq'.
    { apply scanned_positions_occurs. split; [done|lia]. }
    destruct (increasing_adjacent _ p (scanned_positions_increasing text s) Hp' Hq')
      as (l1 & l2 & Hps).
    set (sequences := filter (λ kv, 1 < len kv.2) (scan_text text min_length)) in *.
    assert (p + 1 - p ∈ get_spaces sequences) as Hone.
    { apply (get_spaces_adjacent _ s l1 p (p + 1) l2).
      rewrite <- Hps.
      apply (find_repeat_sequences_entries _ _ sequences _ _ Hd).
      split_and!; [lia..|done|].
      rewrite Hps. unfold len. rewrite length_app. simpl. lia. }
    replace (p + 1 - p) with 1 in Hone by lia.
    split; [done|].
    unfold key_lengths_of_text. rewrite Hd. simpl.
    by apply (find_key_lengths_raises _ _ _ 1).
Qed.

(** The window the scan does not visit: in "abcdXXXX" the sequence "XXX"
    occurs at the offsets 4 and 5, the scan records only the first, and the
    pipeline returns an empty ranking. *)
Example key_lengths_last_window :
  occurs_at text_abcdXXXX (list_ascii_of_string "XXX") 4
  ∧ occurs_at text_abcdXXXX (list_ascii_of_string "XXX") 5
  ∧ key_lengths_of_text elements text_abcdXXXX 3 None = Ok [].
Proof. unfold occurs_at. by vm_compute. Qed.

Lemma key_lengths_of_text_not_total_witness :
  ∃ sequences,
    find_repeat_sequences text_aaaaaaaa 3 = Ok sequences
    ∧ 1 ∈ get_spaces sequences
    ∧ key_lengths_of_text elements text_aaaaaaaa 3 None = Raise ValueError.
Proof.
  apply (proj2 key_lengths_of_text_not_total elements None text_aaaaaaaa 3
           (list_ascii_of_string "aaaa") 0).
  - by vm_compute.
  - by vm_compute.
  - unfold occurs_at. by vm_compute.
  - unfold occurs_at. by vm_compute.
  - by vm_compute.
Defined.

(** * find_key_lengths: the ranking *)

Lemma elem_of_factor_set number f :
  1 < number → f ∈ factor_set number ↔ 1 < f ∧ (f | number).
Proof.
  intros Hn. unfold factor_set.
  by destruct (find_factors_spec number Hn) as (fs & -> & Hfs).
Qed.

Lemma filter_iff_in {A : Type} (P Q : A → Prop)
    `{∀ x, Decision (P x)} `{∀ x, Decision (Q x)} (l : list A) :
  (∀ x, x ∈ l → P x ↔ Q x) → filter P l = filter Q l.
Proof.
  induction l as [|x l IH]; intros HPQ; [done|].
  rewrite !filter_cons, IH by (intros y Hy; apply HPQ; by right).
  destruct (decide (P x)) as [HP|HP], (decide (Q x)) as [HQ|HQ]; try done.
  - exfalso. apply HQ, HPQ; [left|done].
  - exfalso. apply HP, HPQ; [left|done].
Qed.

Lemma len_filter_eq_NoDup (l : list Z) (f : Z) :
  NoDup l → len (filter (λ y, y = f) l) = if decide (f ∈ l) then 1 else 0.
Proof.
  unfold len. induction l as [|x l IH]; intros Hnd.
  - by rewrite decide_False by apply not_elem_of_nil.
  - apply NoDup_cons in Hnd as [Hx Hnd]. rewrite filter_cons.
    destruct (decide (x = f)) as [->|Hne].
    + rewrite decide_True by left. simpl.
      specialize (IH Hnd). rewrite decide_False in IH by done. lia.
    + rewrite IH by done.
      destruct (decide (f ∈ l)) as [Hin|Hnin].
      * by rewrite decide_True by by right.
      * rewrite decide_False; [done|]. rewrite not_elem_of_cons. split; done.
Qed.

Lemma elem_of_first_occurrences (l : list Z) (x : Z) :
  x ∈ first_occurrences l ↔ x ∈ l.
Proof.
  induction l as [|y l IH]; simpl; [done|].
  rewrite !elem_of_cons, list_elem_of_filter, IH.
  destruct (decide (x = y)); tauto.
Qed.

Lemma NoDup_first_occurrences (l : list Z) : NoDup (first_occurrences l).
Proof.
  induction l as [|y l IH]; simpl; [constructor|].
  apply NoDup_cons. split.
  - rewrite list_elem_of_filter. tauto.
  - by apply NoDup_filter.
Qed.

(** ** The stable sort *)

Lemma insert_by_count_perm x l : insert_by_count x l ≡ₚ x :: l.
Proof.
  induction l as [|y l IH]; simpl; [done|].
  case_decide; [|done]. rewrite IH. apply Permutation_swap.
Qed.

Lemma sorted_by_count_perm l : sorted_by_count l ≡ₚ l.
Proof.
  induction l as [|x l IH]; simpl; [done|].
  by rewrite insert_by_count_perm, IH.
Qed.

Lemma insert_by_count_sorted x l :
  counts_non_increasing l → counts_non_increasing (insert_by_count x l).
Proof.
  unfold counts_non_increasing.
  induction l as [|y l IH]; simpl; intros Hl.
  - repeat constructor.
  - apply StronglySorted_cons in Hl as [Hy Hl]. case_decide as Hxy.
    + apply StronglySorted_cons. split; [|by apply IH].
      rewrite insert_by_count_perm. apply Forall_cons. split; [lia|done].
    + apply StronglySorted_cons. split.
      * apply Forall_cons. split; [lia|].
        eapply Forall_impl; [exact Hy|]. simpl. intros z Hz. lia.
      * by apply StronglySorted_cons.
Qed.

Lemma sorted_by_count_sorted l : counts_non_increasing (sorted_by_count l).
Proof.
  induction l as [|x l IH]; simpl; [constructor|].
  by apply insert_by_count_sorted.
Qed.

Lemma insert_by_count_stable c x l :
  filter (λ e, e.2 = c) (insert_by_count x l) = filter (λ e, e.2 = c) (x :: l).
Proof.
  induction l as [|y l IH]; simpl; [done|].
  case_decide as Hxy; [|done].
  rewrite (filter_cons _ y), IH, !filter_cons.
  destruct (decide (y.2 = c)), (decide (x.2 = c)); try done. lia.
Qed.

Lemma sorted_by_count_stable c l :
  filter (λ e, e.2 = c) (sorted_by_count l) = filter (λ e, e.2 = c) l.
Proof.
  induction l as [|x l IH]; simpl; [done|].
  by rewrite insert_by_count_stable, !filter_cons, IH.
Qed.

(** ** The tally *)

Lemma get_tally (key_lengths : list (Z * Z)) (x f : Z) :
  Dict.get (tally key_lengths x) f 0
  = Dict.get key_lengths f 0 + (if decide (x = f) then 1 else 0).
Proof.
  unfold tally, Dict.get. rewrite lookup_setitem.
  destruct (decide (f = x)) as [->|Hne].
  - by rewrite decide_True.
  - rewrite decide_False by done. lia.
Qed.

Lemma get_foldl_tally (l : list Z) (key_lengths : list (Z * Z)) (f : Z) :
  Dict.get (foldl tally key_lengths l) f 0
  = Dict.get key_lengths f 0 + len (filter (λ y, y = f) l).
Proof.
  unfold len. revert key_lengths.
  induction l as [|x l IH]; intros key_lengths; simpl; [lia|].
  rewrite IH, get_tally, filter_cons. case_decide; simpl; lia.
Qed.

Lemma keys_foldl_tally (l : list Z) (key_lengths : list (Z * Z)) :
  Dict.keys (foldl tally key_lengths l)
  = Dict.keys key_lengths
    ++ filter (λ y, y ∉ Dict.keys key_lengths) (first_occurrences l).
Proof.
  revert key_lengths. induction l as [|x l IH]; intros key_lengths.
  - simpl. by rewrite app_nil_r.
  - cbn [foldl first_occurrences]. rewrite IH. unfold tally.
    rewrite (keys_setitem key_lengths x), filter_cons, list_filter_filter.
    destruct (decide (x ∈ Dict.keys key_lengths)) as [Hin|Hnin].
    + rewrite decide_False by (intros Hn; by apply Hn). f_equal.
      apply list_filter_iff. intros y. split; [|by intros [? _]].
      intros Hy. split; [done|]. by intros ->.
    + rewrite decide_True by done. rewrite <- app_assoc. simpl. do 2 f_equal.
      apply list_filter_iff. intros y.
      rewrite not_elem_of_app, list_elem_of_singleton. done.
Qed.

Lemma NoDup_keys_foldl_tally (l : list Z) (key_lengths : list (Z * Z)) :
  NoDup (Dict.keys key_lengths) → NoDup (Dict.keys (foldl tally key_lengths l)).
Proof.
  revert key_lengths. induction l as [|x l IH]; intros key_lengths Hnd; [done|].
  simpl. apply IH. by apply NoDup_keys_setitem.
Qed.

Lemma entries_foldl_tally (l : list Z) (f c : Z) :
  (f, c) ∈ foldl tally [] l ↔ f ∈ l ∧ c = len (filter (λ y, y = f) l).
Proof.
  pose proof (NoDup_keys_foldl_tally l [] ltac:(constructor)) as Hnd.
  pose proof (keys_foldl_tally l []) as Hkeys. simpl in Hkeys.
  pose proof (get_foldl_tally l [] f) as Hget.
  unfold Dict.get at 2 in Hget. simpl in Hget.
  assert (∀ k : list Z, filter (λ y, y ∉ Dict.keys ([] : list (Z * Z))) k = k)
    as Hall.
  { induction k as [|y k IH]; [done|].
    rewrite filter_cons, decide_True, IH; [done|apply not_elem_of_nil]. }
  rewrite Hall in Hkeys. clear Hall.
  split.
  - intros Hin. split.
    + apply elem_of_first_occurrences. rewrite <- Hkeys.
      apply (list_elem_of_fmap_2 fst _ _ Hin).
    + apply elem_of_lookup_Some in Hin; [|done].
      unfold Dict.get in Hget. rewrite Hin in Hget. lia.
  - intros [Hin ->]. apply lookup_Some_elem_of.
    destruct (Dict.lookup (foldl tally [] l) f) as [c|] eqn:Hl.
    + unfold Dict.get in Hget. rewrite Hl in Hget. f_equal. lia.
    + apply lookup_None_keys in Hl. exfalso. apply Hl.
      rewrite Hkeys. by apply elem_of_first_occurrences.
Qed.

Lemma keys_filter_count (key_lengths : list (Z * Z)) (c : Z) :
  NoDup (Dict.keys key_lengths) →
  map fst (filter (λ e, e.2 = c) key_lengths)
  = filter (λ k, Dict.get key_lengths k 0 = c) (Dict.keys key_lengths).
Proof.
  unfold Dict.keys. induction key_lengths as [|[k0 v0] kl IH]; [done|].
  cbn [map fst]. rewrite NoDup_cons. intros [Hk0 Hnd].
  assert (Dict.get ((k0, v0) :: kl) k0 0 = v0) as Hget.
  { unfold Dict.get. cbn [Dict.lookup]. by case_decide. }
  rewrite !filter_cons. cbn [snd].
  rewrite (filter_iff_in (λ k, Dict.get ((k0, v0) :: kl) k 0 = c)
                         (λ k, Dict.get kl k 0 = c)).
  - destruct (decide (v0 = c)), (decide (Dict.get ((k0, v0) :: kl) k0 0 = c));
      simpl; rewrite ?IH by done; congruence.
  - intros k Hk. unfold Dict.get. cbn [Dict.lookup].
    rewrite decide_False; [done|]. by intros ->.
Qed.

(** ** The ranking returned for [n = None] *)

Section ranking.
Variable set_iter : gset Z → list Z.
Hypothesis set_iter_perm : ∀ factors, set_iter factors ≡ₚ elements factors.

Lemma collect_factors_Ok factors spaces :
  Forall (λ x, 1 < x) spaces →
  collect_factors set_iter factors spaces
  = Ok (factors ++ flat_map (λ x, set_iter (factor_set x)) spaces).
Proof.
  intros Hsp. revert factors.
  induction Hsp as [|x spaces Hx Hsp IH]; intros factors; simpl.
  - by rewrite app_nil_r.
  - unfold factor_set at 1.
    destruct (find_factors_spec x Hx) as (fs & -> & _). simpl.
    by rewrite IH, <- app_assoc.
Qed.

Lemma elem_of_set_iter x f :
  1 < x → f ∈ set_iter (factor_set x) ↔ 1 < f ∧ (f | x).
Proof.
  intros Hx. rewrite set_iter_perm, elem_of_elements.
  by apply elem_of_factor_set.
Qed.

Lemma elem_of_all_factors spaces f :
  Forall (λ x, 1 < x) spaces →
  f ∈ flat_map (λ x, set_iter (factor_set x)) spaces
  ↔ 1 < f ∧ ∃ x, x ∈ spaces ∧ (f | x).
Proof.
  intros Hsp. rewrite list_elem_of_In, in_flat_map. split.
  - intros (x & Hx & Hf). apply list_elem_of_In in Hx, Hf.
    rewrite Forall_forall in Hsp.
    apply elem_of_set_iter in Hf as [Hf Hdiv]; [|by apply Hsp]. eauto.
  - intros (Hf & x & Hx & Hdiv). exists x. rewrite <- !list_elem_of_In.
    split; [done|]. rewrite Forall_forall in Hsp.
    apply elem_of_set_iter; [by apply Hsp|done].
Qed.

Lemma count_all_factors spaces f :
  Forall (λ x, 1 < x) spaces → 1 < f →
  len (filter (λ y, y = f) (flat_map (λ x, set_iter (factor_set x)) spaces))
  = votes f spaces.
Proof.
  intros Hsp Hf. unfold votes, len.
  induction Hsp as [|x spaces Hx Hsp IH]; simpl; [done|].
  rewrite filter_app, length_app, Nat2Z.inj_add, IH, filter_cons.
  assert (Z.of_nat (length (filter (λ y, y = f) (set_iter (factor_set x))))
          = if decide (f | x) then 1 else 0) as ->.
  { rewrite (set_iter_perm (factor_set x)).
    pose proof (len_filter_eq_NoDup (elements (factor_set x)) f
                  (NoDup_elements _)) as Hlen.
    unfold len in Hlen. rewrite Hlen.
    destruct (decide (f | x)) as [Hdiv|Hdiv].
    - rewrite decide_True; [done|]. apply elem_of_elements.
      by apply elem_of_factor_set.
    - rewrite decide_False; [done|]. rewrite elem_of_elements.
      rewrite elem_of_factor_set by done. tauto. }
  case_decide; simpl; lia.
Qed.

(** C3: when every spacing is greater than 1, [find_key_lengths(spaces,
    None)] returns a ranking with exactly one pair (factor, count) for every
    integer [f >= 2] that divides at least one spacing, the count being the
    number of spacings that [f] divides; the counts never increase along the
    ranking; and the factors of equal count appear in the order in which the
    tally first met them in the list of factors. *)
Theorem find_key_lengths_ranking spaces :
  Forall (λ x, 1 < x) spaces →
  ∃ factors ranking,
    collect_factors set_iter [] spaces = Ok factors
    ∧ find_key_lengths set_iter spaces None = Ok ranking
    ∧ NoDup (map fst ranking)
    ∧ (∀ f c, (f, c) ∈ ranking
              ↔ 2 ≤ f ∧ (∃ x, x ∈ spaces ∧ (f | x)) ∧ c = votes f spaces)
    ∧ counts_non_increasing ranking
    ∧ ∀ c, map fst (filter (λ e, e.2 = c) ranking)
           = filter (λ f, votes f spaces = c) (first_occurrences factors).
Proof.
  intros Hsp. pose proof (collect_factors_Ok [] spaces Hsp) as Hcollect.
  simpl in Hcollect.
  set (factors := flat_map (λ x, set_iter (factor_set x)) spaces) in *.
  exists factors, (sorted_by_count (Dict.items (foldl tally [] factors))).
  pose proof (NoDup_keys_foldl_tally factors [] ltac:(constructor)) as Hnd.
  pose proof (keys_foldl_tally factors []) as Hkeys. simpl in Hkeys.
  assert (∀ k : list Z, filter (λ y, y ∉ Dict.keys ([] : list (Z * Z))) k = k)
    as Hall.
  { induction k as [|y k IH]; [done|].
    rewrite filter_cons, decide_True, IH; [done|apply not_elem_of_nil]. }
  rewrite Hall in Hkeys. clear Hall.
  unfold Dict.items. split_and!.
  - done.
  - unfold find_key_lengths. by rewrite Hcollect.
  - assert (map fst (sorted_by_count (foldl tally [] factors))
            ≡ₚ map fst (foldl tally [] factors)) as ->; [|exact Hnd].
    apply Permutation_map, sorted_by_count_perm.
  - intros f c. rewrite sorted_by_count_perm, entries_foldl_tally.
    unfold factors at 1. rewrite elem_of_all_factors by done. split.
    + intros [[Hf Hx] ->]. split_and!; [lia|done|].
      by apply count_all_factors.
    + intros (Hf & Hx & ->). split; [split; [lia|done]|].
      symmetry. apply count_all_factors; [done|lia].
  - apply sorted_by_count_sorted.
  - intros c. rewrite sorted_by_count_stable, keys_filter_count by done.
    rewrite Hkeys. apply filter_iff_in. intros f Hf.
    rewrite elem_of_first_occurrences in Hf.
    pose proof Hf as Hf'. unfold factors in Hf'.
    apply elem_of_all_factors in Hf' as [Hf1 _]; [|done].
    rewrite get_foldl_tally. unfold Dict.get at 1. simpl.
    unfold factors. by rewrite count_all_factors.
Qed.

End ranking.

Lemma find_key_lengths_ranking_witness :
  ∃ factors ranking,
    collect_factors elements [] [4; 6] = Ok factors
    ∧ find_key_lengths elements [4; 6] None = Ok ranking
    ∧ NoDup (map fst ranking)
    ∧ (∀ f c, (f, c) ∈ ranking
              ↔ 2 ≤ f ∧ (∃ x, x ∈ [4; 6] ∧ (f | x)) ∧ c = votes f [4; 6])
    ∧ counts_non_increasing ranking
    ∧ ∀ c, map fst (filter (λ e, e.2 = c) ranking)
           = filter (λ f, votes f [4; 6] = c) (first_occurrences factors).
Proof.
  apply (find_key_lengths_ranking elements).
  - intros factors. reflexivity.
  - repeat constructor; lia.
Defined.

Example key_lengths_4_6 :
  find_key_lengths elements [4; 6] None = Ok [(2, 2); (4, 1); (3, 1); (6, 1)].
Proof. by vm_compute. Qed.

(** * language.py *)

Section language_facts.
Context {R : Type} `{Number R}.
Implicit Types (st : store R) (text language : str).

(** A language is available exactly when the directory holds its file. *)
Lemma available_iff_listed st language :
  language ∈ _get_available_languages st
  ↔ language ++ json_suffix ∈ listdir st.
Proof.
  unfold _get_available_languages. rewrite list_elem_of_fmap. split.
  - intros (file_name & -> & Hin).
    apply list_elem_of_filter in Hin as [Hends Hin].
    unfold endswith in Hends. apply bool_decide_eq_true in Hends as [k ->].
    rewrite length_app. replace (length json_suffix) with 5%nat by done.
    replace (length k + 5 - 5)%nat with (length k) by lia.
    by rewrite take_app_length.
  - intros Hin. exists (language ++ json_suffix). split.
    + rewrite length_app. replace (length json_suffix) with 5%nat by done.
      replace (length language + 5 - 5)%nat with (length language) by lia.
      by rewrite take_app_length.
    + apply list_elem_of_filter. split; [|done].
      unfold endswith. apply bool_decide_eq_true. by exists language.
Qed.

Lemma open_load_absent st language :
  language ∉ _get_available_languages st →
  open_load st language = Raise FileNotFoundError.
Proof.
  rewrite available_iff_listed. intros Hnin.
  apply (lookup_None_keys st) in Hnin. unfold open_load. by rewrite Hnin.
Qed.

Lemma open_load_available st language :
  language ∈ _get_available_languages st →
  open_load st language ≠ Raise FileNotFoundError.
Proof.
  rewrite available_iff_listed. intros Hin Hraise. unfold open_load in Hraise.
  destruct (Dict.lookup st (language ++ json_suffix)) as [[table|]|] eqn:Hl;
    try done.
  by apply (lookup_None_keys st) in Hl.
Qed.

(** ** Loading the tables *)

Lemma load_tables_absent st frequency_tables languages language :
  language ∈ languages →
  language ∉ _get_available_languages st →
  ∃ e, load_tables st frequency_tables languages = Raise e.
Proof.
  intros Hin Habs. revert frequency_tables.
  induction languages as [|l languages IH]; intros frequency_tables.
  { by apply elem_of_nil in Hin. }
  cbn [load_tables].
  destruct (decide (language = l)) as [<-|Hne].
  - rewrite open_load_absent by done. simpl. eauto.
  - apply elem_of_cons in Hin as [?|Hin]; [done|].
    unfold open_load.
    destruct (Dict.lookup st (l ++ json_suffix)) as [[table|]|]; simpl;
      [by apply IH|eauto..].
Qed.

(** Loading stops at the first name that has no file. *)
Lemma load_tables_first_absent st frequency_tables before language after :
  (∀ l, l ∈ before → ∃ table, open_load st l = Ok table) →
  language ∉ _get_available_languages st →
  load_tables st frequency_tables (before ++ language :: after)
  = Raise FileNotFoundError.
Proof.
  intros Hbefore Habs. revert frequency_tables.
  induction before as [|l before IH]; intros frequency_tables; cbn [app load_tables].
  - by rewrite open_load_absent.
  - destruct (Hbefore l ltac:(left)) as [table ->]. simpl.
    apply IH. intros l' Hl'. apply Hbefore. by right.
Qed.

Lemma load_tables_available st frequency_tables languages :
  (∀ language, language ∈ languages → language ∈ _get_available_languages st) →
  load_tables st frequency_tables languages ≠ Raise FileNotFoundError.
Proof.
  revert frequency_tables.
  induction languages as [|l languages IH]; intros frequency_tables Hall; [done|].
  cbn [load_tables].
  pose proof (open_load_available st l (Hall l ltac:(left))) as Hl.
  destruct (open_load st l) as [table|e|]; simpl; [|congruence|done].
  apply IH. intros language Hin. apply Hall. by right.
Qed.

Lemma load_tables_other st frequency_tables languages loaded language :
  load_tables st frequency_tables languages = Ok loaded →
  language ∉ languages →
  Dict.lookup loaded language = Dict.lookup frequency_tables language.
Proof.
  revert frequency_tables.
  induction languages as [|l languages IH]; intros frequency_tables.
  { by intros [= <-]. }
  cbn [load_tables]. destruct (open_load st l) as [table| |]; simpl; [|done..].
  intros Hload Hnin. apply not_elem_of_cons in Hnin as [Hne Hnin].
  rewrite (IH _ Hload Hnin), lookup_setitem. by rewrite decide_False.
Qed.

Lemma load_tables_lookup st frequency_tables languages loaded language table :
  load_tables st frequency_tables languages = Ok loaded →
  language ∈ languages →
  open_load st language = Ok table →
  Dict.lookup loaded language = Some table.
Proof.
  revert frequency_tables.
  induction languages as [|l languages IH]; intros frequency_tables.
  { intros _ Hin. by apply elem_of_nil in Hin. }
  cbn [load_tables]. destruct (open_load st l) as [table0| |] eqn:Hl0; simpl;
    [|done..].
  intros Hload Hin Hopen.
  destruct (decide (language ∈ languages)) as [Hin'|Hnin]; [by eapply IH|].
  apply elem_of_cons in Hin as [->|?]; [|done].
  rewrite (load_tables_other _ _ _ _ _ Hload Hnin), lookup_setitem.
  rewrite decide_True by done. congruence.
Qed.

Lemma load_tables_NoDup st frequency_tables languages loaded :
  load_tables st frequency_tables languages = Ok loaded →
  NoDup (Dict.keys frequency_tables) → NoDup (Dict.keys loaded).
Proof.
  revert frequency_tables.
  induction languages as [|l languages IH]; intros frequency_tables.
  { by intros [= <-]. }
  cbn [load_tables]. destruct (open_load st l) as [table| |]; simpl; [|done..].
  intros Hload Hnd. eapply IH; [done|]. by apply NoDup_keys_setitem.
Qed.

(** ** Scoring *)

Lemma Counter_empty_text : Counter (chars (lower [])) = [].
Proof. done. Qed.

Lemma len_zero_nil {A : Type} (l : list A) : len l = 0 → l = [].
Proof. destruct l; [done|]. unfold len. simpl. lia. Qed.

Lemma accumulate_no_match text_frequency text_length similarity
    (items : list (str * R)) :
  (∀ char, char ∈ Dict.keys items → Dict.contains text_frequency char = false) →
  accumulate text_frequency text_length similarity items = Ok similarity.
Proof.
  unfold Dict.keys. induction items as [|[char frequency] items IH]; [done|].
  intros Hno. cbn [accumulate]. rewrite (Hno char) by left.
  apply IH. intros c Hc. apply Hno. by right.
Qed.

Lemma accumulate_returns text_frequency text_length similarity
    (items : list (str * R)) :
  text_length ≠ 0 →
  ∃ result, accumulate text_frequency text_length similarity items = Ok result.
Proof.
  intros Hlen. revert similarity.
  induction items as [|[char frequency] items IH]; intros similarity.
  { by eexists. }
  cbn [accumulate]. destruct (Dict.contains text_frequency char); [|apply IH].
  unfold div_length. rewrite decide_False by done. simpl. apply IH.
Qed.

(** The scoring loop returns a number for every text: it divides only when
    a character of the table occurs in the text, and then the text is not
    empty. *)
Lemma accumulate_text_returns text similarity (items : list (str * R)) :
  ∃ result,
    accumulate (Counter (chars (lower text))) (len text) similarity items
    = Ok result.
Proof.
  destruct (decide (len text = 0)) as [Hz|Hnz]; [|by apply accumulate_returns].
  apply len_zero_nil in Hz as ->. rewrite Counter_empty_text.
  exists similarity. by apply accumulate_no_match.
Qed.

Lemma score_tables_raise text_frequency text_length similarities
    (tables : list (str * list (str * R))) e :
  score_tables text_frequency text_length similarities tables = Raise e →
  ∃ similarity items,
    accumulate text_frequency text_length similarity items = Raise e.
Proof.
  revert similarities.
  induction tables as [|[language table] tables IH]; intros similarities; [done|].
  cbn [score_tables].
  destruct (accumulate text_frequency text_length (of_int 0) (Dict.items table))
    as [s|e'|] eqn:Hacc; simpl.
  - apply IH.
  - intros [= <-]. eauto.
  - done.
Qed.

Lemma score_tables_lookup text_frequency text_length similarities
    (tables : list (str * list (str * R))) scores language table :
  score_tables text_frequency text_length similarities tables = Ok scores →
  NoDup (Dict.keys tables) →
  Dict.lookup tables language = Some table →
  ∃ similarity,
    accumulate text_frequency text_length (of_int 0) (Dict.items table)
    = Ok similarity
    ∧ Dict.lookup scores language = Some (sub (of_int 1) similarity).
Proof.
  assert (∀ tables similarities scores,
            score_tables text_frequency text_length similarities tables = Ok scores →
            language ∉ Dict.keys tables →
            Dict.lookup scores language = Dict.lookup similarities language)
    as Hother.
  { clear. unfold Dict.keys.
    induction tables as [|[l t] tables IH]; intros similarities scores.
    { by intros [= <-]. }
    cbn [score_tables map fst].
    destruct (accumulate _ _ _ _) as [s| |]; simpl; [|done..].
    intros Hscore Hnin. apply not_elem_of_cons in Hnin as [Hne Hnin].
    rewrite (IH _ _ Hscore Hnin), lookup_setitem. by rewrite decide_False. }
  revert similarities. unfold Dict.keys.
  induction tables as [|[l t] tables IH]; intros similarities; [done|].
  cbn [score_tables map fst Dict.lookup]. rewrite NoDup_cons.
  destruct (accumulate text_frequency text_length (of_int 0) (Dict.items t))
    as [s| |] eqn:Hacc; simpl; [|done..].
  intros Hscore [Hl Hnd]. destruct (decide (language = l)) as [->|Hne].
  - intros [= ->]. exists s. split; [done|].
    rewrite (Hother _ _ _ Hscore Hl), lookup_setitem. by rewrite decide_True.
  - intros Hlookup. by eapply IH.
Qed.

Lemma score_tables_origin text_frequency text_length similarities
    (tables : list (str * list (str * R))) scores language score :
  score_tables text_frequency text_length similarities tables = Ok scores →
  Dict.lookup scores language = Some score →
  Dict.lookup similarities language = Some score
  ∨ ∃ table similarity,
      (language, table) ∈ tables
      ∧ accumulate text_frequency text_length (of_int 0) (Dict.items table)
        = Ok similarity
      ∧ score = sub (of_int 1) similarity.
Proof.
  revert similarities.
  induction tables as [|[l t] tables IH]; intros similarities.
  { intros [= <-] Hl. by left. }
  cbn [score_tables].
  destruct (accumulate text_frequency text_length (of_int 0) (Dict.items t))
    as [s| |] eqn:Hacc; simpl; [|done..].
  intros Hscore Hl. destruct (IH _ Hscore Hl) as [Hprev|(table & s' & Hin & ? & ?)].
  - rewrite lookup_setitem in Hprev. case_decide as Heq; [|by left].
    injection Hprev as <-. subst. right. exists t, s. split_and!; [left|done..].
  - right. exists table, s'. split_and!; [by right|done..].
Qed.

(** The two entry points on one language: what [detect_language] computes
    for the list [[language]]. *)
Lemma detect_language_single st text language :
  detect_language st text (Some [language])
  = (table ← open_load st language;
     similarity ← accumulate (Counter (chars (lower text))) (len text)
                    (of_int 0) (Dict.items table);
     Ok [(language, sub (of_int 1) similarity)]).
Proof.
  unfold detect_language. cbn [load_tables].
  destruct (open_load st language) as [table| |]; simpl; [|done..].
  by destruct (accumulate _ _ _ _).
Qed.

Lemma is_typical_available st text language threshold :
  language ∈ _get_available_languages st →
  is_typical st text language threshold
  = (table ← open_load st language;
     similarity ← accumulate (Counter (chars (lower text))) (len text)
                    (of_int 0) (Dict.items table);
     Ok (gt (sub (of_int 1) similarity) threshold)).
Proof.
  intros Hav. unfold is_typical.
  rewrite decide_False; [done|]. by intros Hn.
Qed.

(** ** Claims about language.py *)

(** C6: the two entry points score alike.  For a language of the store,
    [is_typical(text, language, t)] returns [b] exactly when
    [detect_language(text, [language])] returns a dictionary whose entry
    for [language] is a score with [b = (score > t)]; and [is_typical]
    raises an exception exactly when [detect_language] raises the same. *)
Theorem is_typical_agrees_with_detect_language st text language threshold :
  language ∈ _get_available_languages st →
  (∀ b, is_typical st text language threshold = Ok b
        ↔ ∃ similarities score,
            detect_language st text (Some [language]) = Ok similarities
            ∧ Dict.lookup similarities language = Some score
            ∧ b = gt score threshold)
  ∧ (∀ e, is_typical st text language threshold = Raise e
          ↔ detect_language st text (Some [language]) = Raise e).
Proof.
  intros Hav. rewrite is_typical_available, detect_language_single by done.
  destruct (open_load st language) as [table|e'|]; simpl.
  - destruct (accumulate _ _ _ _) as [s|e'|]; simpl.
    + split.
      * intros b. split.
        -- intros [= <-]. exists [(language, sub (of_int 1) s)], (sub (of_int 1) s).
           split_and!; [done| |done]. simpl. by rewrite decide_True.
        -- intros (sims & score & [= <-] & Hl & ->). simpl in Hl.
           rewrite decide_True in Hl by done. by injection Hl as <-.
      * intros e. split; intros Hr; discriminate Hr.
    + split; [|intros e; split; by intros [= ->]]. intros b. split; [done|]. by intros (? & ? & ? & _).
    + split; [|intros e; split; by intros [= ->]]. intros b. split; [done|]. by intros (? & ? & ? & _).
  - split; [|intros e; split; by intros [= ->]]. intros b. split; [done|]. by intros (? & ? & ? & _).
  - split; [|intros e; split; by intros [= ->]]. intros b. split; [done|]. by intros (? & ? & ? & _).
Qed.

(** On a directory that is there, [detect_language_in] is [detect_language]. *)
Lemma detect_language_in_existing st text languages :
  detect_language_in (Existing st) text languages
  = detect_language st text languages.
Proof. by destruct languages. Qed.

Lemma detect_language_listed_found st text :
  detect_language st text (Some (_get_available_languages st))
  ≠ Raise FileNotFoundError.
Proof.
  unfold detect_language.
  pose proof (load_tables_available st [] (_get_available_languages st)
                (λ _ Hin, Hin)) as Hload.
  destruct (load_tables st [] (_get_available_languages st))
    as [loaded|e|]; simpl; [|congruence|done].
  intros Hraise. apply score_tables_raise in Hraise as (s & items & Hacc).
  destruct (accumulate_text_returns text s items) as [r Hr]. congruence.
Qed.


(** C8: [is_typical] is monotonic in the threshold. *)
Theorem is_typical_monotone st text language t1 t2 :
  language ∈ _get_available_languages st →
  is_typical st text language t1 = Ok true →
  gt t1 t2 = true →
  is_typical st text language t2 = Ok true.
Proof.
  intros Hav. rewrite !is_typical_available by done.
  destruct (open_load st language) as [table| |]; simpl; [|done..].
  destruct (accumulate _ _ _ _) as [s| |]; simpl; [|done..].
  intros [= Hs] Ht. f_equal. by eapply gt_trans.
Qed.

(** C10: neither entry point divides by zero, whatever the text; the score
    [detect_language] returns for a language is exactly 1 when no character
    of the language's table occurs in the (lower-cased) text, and so it is
    for every language when the text is empty. *)
Theorem detect_language_no_division_by_zero :
  (∀ st text languages,
     detect_language st text languages ≠ Raise ZeroDivisionError)
  ∧ (∀ st text language threshold,
       is_typical st text language threshold ≠ Raise ZeroDivisionError)
  ∧ (∀ st text languages similarities language table,
       detect_language st text languages = Ok similarities →
       language ∈ default (_get_available_languages st) languages →
       open_load st language = Ok table →
       (∀ char, char ∈ Dict.keys table →
                Dict.contains (Counter (chars (lower text))) char = false) →
       Dict.lookup similarities language = Some (of_int 1))
  ∧ (∀ st languages similarities language score,
       detect_language st [] languages = Ok similarities →
       Dict.lookup similarities language = Some score →
       score = of_int 1).
Proof.
  split_and!.
  - intros st text languages. unfold detect_language.
    destruct (load_tables st [] _) as [loaded|e|] eqn:Hload; simpl; [| |done].
    + intros Hraise. apply score_tables_raise in Hraise as (s & items & Hacc).
      destruct (accumulate_text_returns text s items) as [r Hr]. congruence.
    + intros [= ->]. revert Hload. generalize ([] : list (str * list (str * R))).
      generalize (match languages with
                  | Some l => l
                  | None => _get_available_languages st
                  end).
      intros ls. induction ls as [|l ls IH]; intros acc; [done|].
      cbn [load_tables]. unfold open_load.
      destruct (Dict.lookup st (l ++ json_suffix)) as [[table|]|]; simpl;
        [apply IH|done..].
  - intros st text language threshold. unfold is_typical.
    case_decide; [done|]. unfold open_load.
    destruct (Dict.lookup st (language ++ json_suffix)) as [[table|]|]; simpl;
      [|done..].
    destruct (accumulate_text_returns text (of_int 0) (Dict.items table))
      as [r ->]. done.
  - intros st text languages similarities language table Hdetect Hin Hopen Hno.
    unfold detect_language in Hdetect.
    assert (default (_get_available_languages st) languages
            = match languages with
              | Some l => l
              | None => _get_available_languages st
              end) as Hreq by by destruct languages.
    rewrite Hreq in Hin. clear Hreq.
    destruct (load_tables st [] _) as [loaded| |] eqn:Hload; simpl in Hdetect;
      [|done..].
    pose proof (load_tables_lookup _ _ _ _ _ _ Hload Hin Hopen) as Hl.
    pose proof (load_tables_NoDup _ _ _ _ Hload ltac:(constructor)) as Hnd.
    destruct (score_tables_lookup _ _ _ _ _ _ _ Hdetect Hnd Hl) as (s & Hs & ->).
    rewrite accumulate_no_match in Hs by done. injection Hs as <-.
    by rewrite sub_of_int.
  - intros st languages similarities language score Hdetect Hl.
    unfold detect_language in Hdetect.
    destruct (load_tables st [] _) as [loaded| |]; simpl in Hdetect; [|done..].
    destruct (score_tables_origin _ _ _ _ _ _ _ Hdetect Hl)
      as [?|(table & s & _ & Hs & ->)]; [done|].
    rewrite accumulate_no_match in Hs by done.
    injection Hs as <-. by rewrite sub_of_int.
Qed.

End language_facts.

(** ** The claims on a small store of rational tables *)

Example available_demo :
  _get_available_languages demo_store = [english; list_ascii_of_string "broken"].
Proof. by vm_compute. Qed.

Example detect_tee :
  detect_language demo_store text_tee (Some [english])
  = Ok [(english, 1 - (0 + Qabs ((1 # 8) - 2) / 3 + Qabs ((1 # 10) - 1) / 3))%Q].
Proof. reflexivity. Qed.

Example is_typical_tee :
  is_typical demo_store text_tee english (2 # 5)%Q = Ok false
  ∧ is_typical demo_store text_tee english 0%Q = Ok true.
Proof. split; by vm_compute. Qed.

Example is_typical_unknown :
  is_typical demo_store text_tee klingon (2 # 5)%Q = Raise ValueError.
Proof. by vm_compute. Qed.

Lemma is_typical_agrees_with_detect_language_witness :
  (∀ b, is_typical demo_store text_tee english (2 # 5)%Q = Ok b
        ↔ ∃ similarities score,
            detect_language demo_store text_tee (Some [english]) = Ok similarities
            ∧ Dict.lookup similarities english = Some score
            ∧ b = gt score (2 # 5)%Q)
  ∧ (∀ e, is_typical demo_store text_tee english (2 # 5)%Q = Raise e
          ↔ detect_language demo_store text_tee (Some [english]) = Raise e).
Proof.
  apply (is_typical_agrees_with_detect_language demo_store text_tee english (2 # 5)%Q).
  apply (bool_decide_unpack (english ∈ _get_available_languages demo_store)).
  by vm_compute.
Defined.

Lemma is_typical_monotone_witness :
  is_typical demo_store text_tee english (-1 # 1)%Q = Ok true.
Proof.
  apply (is_typical_monotone demo_store text_tee english 0%Q (-1 # 1)%Q).
  - apply (bool_decide_unpack (english ∈ _get_available_languages demo_store)).
    by vm_compute.
  - by vm_compute.
  - by vm_compute.
Defined.



Example detect_klingon :
  detect_language demo_store text_tee (Some [english; klingon])
  = Raise FileNotFoundError.
Proof. by vm_compute. Qed.

Lemma detect_language_no_division_by_zero_witness :
  Dict.lookup [(english, 1%Q)] english = Some (of_int 1)
  ∧ 1%Q = of_int 1.
Proof.
  split.
  - apply (proj1 (proj2 (proj2 detect_language_no_division_by_zero))
             demo_store text_xyz (Some [english]) [(english, 1%Q)] english
             english_table).
    + by vm_compute.
    + left.
    + by vm_compute.
    + intros char Hchar. apply list_elem_of_In in Hchar.
      destruct Hchar as [<-|[<-|[]]]; by vm_compute.
  - apply (proj2 (proj2 (proj2 detect_language_no_division_by_zero))
             demo_store (Some [english]) [(english, 1%Q)] english 1%Q).
    + by vm_compute.
    + by vm_compute.
Defined.

Example detect_empty_text :
  detect_language demo_store [] (Some [english]) = Ok [(english, 1%Q)].
Proof. by vm_compute. Qed.

(** * Further properties of kasiski_examination.py *)

(** X3: [find_factors] raises [ValueError] exactly for [number <= 1]; for
    every other number the loop ends and the set it returns holds only
    numbers between 2 and [number]. *)
Theorem find_factors_raises_iff number :
  (find_factors number = Raise ValueError ↔ number ≤ 1)
  ∧ ((∃ factors, find_factors number = Ok factors) ↔ 1 < number)
  ∧ (∀ factors f, find_factors number = Ok factors → f ∈ factors →
                  2 ≤ f ≤ number).
Proof.
  destruct (decide (number ≤ 1)) as [Hle|Hgt].
  - rewrite find_factors_raises by done. split_and!.
    + done.
    + split; [by intros [? ?]|lia].
    + done.
  - destruct (find_factors_spec number ltac:(lia)) as (fs & Hfs & Hspec).
    rewrite Hfs. split_and!.
    + split; [done|lia].
    + split; [lia|eauto].
    + intros factors f [= <-] Hf. apply Hspec in Hf as [Hf Hdiv].
      split; [lia|]. apply Z.divide_pos_le; [lia|done].
Qed.

(** X4: the factors of a number are factors of each of its multiples. *)
Theorem find_factors_divide a b factors_a factors_b :
  find_factors a = Ok factors_a →
  find_factors b = Ok factors_b →
  (a | b) →
  factors_a ⊆ factors_b.
Proof.
  intros Ha Hb Hab.
  destruct (decide (a ≤ 1)); [by rewrite find_factors_raises in Ha|].
  destruct (decide (b ≤ 1)); [by rewrite find_factors_raises in Hb|].
  destruct (find_factors_spec a ltac:(lia)) as (fa & Hfa & Hspec_a).
  destruct (find_factors_spec b ltac:(lia)) as (fb & Hfb & Hspec_b).
  rewrite Hfa in Ha. rewrite Hfb in Hb. injection Ha as <-. injection Hb as <-.
  intros f Hf. apply Hspec_a in Hf as [Hf Hdiv]. apply Hspec_b.
  split; [done|]. by etrans.
Qed.

Lemma find_factors_divide_witness :
  ({[2; 4]} : gset Z) ⊆ {[2; 3; 4; 6; 12]}.
Proof.
  apply (find_factors_divide 4 12).
  - by vm_compute.
  - by vm_compute.
  - by exists 3.
Defined.

Lemma get_spaces_elem (sequences : list (str * list Z)) (x : Z) :
  x ∈ get_spaces sequences
  ↔ ∃ s l1 p q l2, (s, l1 ++ p :: q :: l2) ∈ sequences ∧ x = q - p.
Proof.
  split.
  - rewrite get_spaces_flat_map, list_elem_of_In, in_flat_map.
    intros (ps & Hps & Hx). apply list_elem_of_In in Hps, Hx.
    unfold Dict.values in Hps. apply list_elem_of_fmap in Hps as ([s ps'] & -> & Hin).
    apply list_elem_of_fmap in Hx as (i & -> & Hi). simpl in *.
    apply elem_of_seqZ in Hi. unfold len in Hi.
    destruct (lookup_lt_is_Some_2 ps' (Z.to_nat i) ltac:(lia)) as [p Hp].
    destruct (lookup_lt_is_Some_2 ps' (S (Z.to_nat i)) ltac:(lia)) as [q Hq].
    exists s, (take (Z.to_nat i) ps'), p, q, (drop (S (S (Z.to_nat i))) ps').
    assert (take (Z.to_nat i) ps' ++ p :: q :: drop (S (S (Z.to_nat i))) ps' = ps')
      as Hsplit.
    { by rewrite <- (drop_S _ _ _ Hq), <- (drop_S _ _ _ Hp), take_drop. }
    split; [by rewrite Hsplit|].
    unfold item. rewrite !nth_lookup.
    replace (Z.to_nat (i + 1)) with (S (Z.to_nat i)) by lia.
    by rewrite Hp, Hq.
  - intros (s & l1 & p & q & l2 & Hin & ->). by eapply get_spaces_adjacent.
Qed.

Lemma increasing_adjacent_lt (l1 l2 : list Z) (p q : Z) :
  strictly_increasing (l1 ++ p :: q :: l2) → p < q.
Proof.
  intros Hs. apply StronglySorted_app in Hs as (_ & _ & Hs).
  apply StronglySorted_cons in Hs as [Hp _].
  by apply Forall_cons in Hp as [Hpq _].
Qed.

Lemma scan_spaces_bounds text min_length sequences x :
  find_repeat_sequences text min_length = Ok sequences →
  x ∈ get_spaces sequences →
  1 ≤ x < len text - min_length.
Proof.
  intros Hd Hx. apply get_spaces_elem in Hx as (s & l1 & p & q & l2 & Hin & ->).
  apply (find_repeat_sequences_entries _ _ _ _ _ Hd) in Hin as (Hlen & Hps & _).
  pose proof (scanned_positions_increasing text s) as Hinc.
  rewrite <- Hps in Hinc. apply increasing_adjacent_lt in Hinc.
  assert (p ∈ scanned_positions text s) as Hp.
  { rewrite <- Hps. apply elem_of_app. right. left. }
  assert (q ∈ scanned_positions text s) as Hq.
  { rewrite <- Hps. apply elem_of_app. right. right. left. }
  apply elem_of_scanned_positions in Hp as [Hp _].
  apply elem_of_scanned_positions in Hq as [Hq _]. lia.
Qed.

(** X5: a number is a spacing of [get_spaces] exactly when it is the
    difference of two offsets that are adjacent in the list of some key. *)
Theorem get_spaces_elem_of (sequences : list (str * list Z)) (x : Z) :
  x ∈ get_spaces sequences
  ↔ ∃ s l1 p q l2, (s, l1 ++ p :: q :: l2) ∈ sequences ∧ x = q - p.
Proof. apply get_spaces_elem. Qed.

(** X6: the spacings computed from the dictionary of
    [find_repeat_sequences] are positive and smaller than
    [len(text) - min_length]. *)
Theorem get_spaces_of_scan_bounds text min_length sequences x :
  find_repeat_sequences text min_length = Ok sequences →
  x ∈ get_spaces sequences →
  1 ≤ x < len text - min_length.
Proof. apply scan_spaces_bounds. Qed.

Lemma get_spaces_of_scan_bounds_witness : 1 ≤ 2 < len text_ababab - 2.
Proof.
  apply (get_spaces_of_scan_bounds text_ababab 2
           [(seq_ab, [0; 2]); (seq_ba, [1; 3]); (seq_aba, [0; 2])] 2).
  - by vm_compute.
  - vm_compute. left.
Defined.

(** ** find_key_lengths for every [n] *)

Section key_lengths_outcome.
Variable set_iter : gset Z → list Z.

Lemma find_key_lengths_outcome spaces n :
  (Forall (λ x, 1 < x) spaces
   ∧ ∃ result, find_key_lengths set_iter spaces n = Ok result)
  ∨ ((∃ x, x ∈ spaces ∧ x ≤ 1)
     ∧ find_key_lengths set_iter spaces n = Raise ValueError).
Proof.
  destruct (decide (Forall (λ x, 1 < x) spaces)) as [Hall|Hnot].
  - left. split; [done|]. unfold find_key_lengths.
    rewrite (collect_factors_Ok set_iter [] spaces Hall). simpl.
    destruct n; by eexists.
  - right. apply not_Forall_Exists in Hnot; [|apply _].
    apply Exists_exists in Hnot as (x & Hx & Hle). simpl in Hle. assert (x ≤ 1) as Hx1 by lia.
    split; [by exists x|]. by apply (find_key_lengths_raises _ _ _ x).
Qed.

(** X7: whatever [n], [find_key_lengths] raises [ValueError] exactly when
    some spacing is 1 or less, and returns a ranking exactly when every
    spacing is greater than 1. *)
Theorem find_key_lengths_raises_iff spaces n :
  (find_key_lengths set_iter spaces n = Raise ValueError
   ↔ ∃ x, x ∈ spaces ∧ x ≤ 1)
  ∧ ((∃ result, find_key_lengths set_iter spaces n = Ok result)
     ↔ Forall (λ x, 1 < x) spaces).
Proof.
  destruct (find_key_lengths_outcome spaces n)
    as [[Hall [result Hr]]|[(x & Hx & Hle) Hr]]; rewrite Hr.
  - split.
    + split; [done|]. intros (x & Hx & Hle).
      rewrite Forall_forall in Hall. specialize (Hall x Hx). lia.
    + split; [done|eauto].
  - split.
    + split; [eauto|done].
    + split; [by intros [? ?]|]. intros Hall.
      rewrite Forall_forall in Hall. specialize (Hall x Hx). lia.
Qed.

(** X8: with [n] given, [find_key_lengths] returns the first [n] entries of
    the ranking it returns without [n] (none for [n <= 0], all of them when
    there are fewer than [n]), and no entry left out has a greater count
    than an entry returned. *)
Theorem find_key_lengths_top_n spaces n ranking :
  find_key_lengths set_iter spaces None = Ok ranking →
  ∃ top rest,
    find_key_lengths set_iter spaces (Some n) = Ok top
    ∧ ranking = top ++ rest
    ∧ len top = Z.min (Z.max n 0) (len ranking)
    ∧ ∀ e e', e ∈ top → e' ∈ rest → e'.2 ≤ e.2.
Proof.
  unfold find_key_lengths.
  destruct (collect_factors set_iter [] spaces) as [factors| |]; simpl; [|done..].
  intros [= <-]. unfold nlargest.
  set (ranking := sorted_by_count (Dict.items (foldl tally [] factors))).
  exists (take (Z.to_nat n) ranking), (drop (Z.to_nat n) ranking).
  split_and!.
  - done.
  - by rewrite take_drop.
  - unfold len. rewrite length_take. lia.
  - intros e e' He He'.
    pose proof (sorted_by_count_sorted (Dict.items (foldl tally [] factors)))
      as Hsorted.
    fold ranking in Hsorted. rewrite <- (take_drop (Z.to_nat n) ranking) in Hsorted.
    unfold counts_non_increasing in Hsorted.
    apply StronglySorted_app in Hsorted as (Hcross & _ & _).
    by apply (Hcross e e').
Qed.

End key_lengths_outcome.

Lemma find_key_lengths_top_n_witness :
  ∃ top rest,
    find_key_lengths elements [4; 6] (Some 2) = Ok top
    ∧ [(2, 2); (4, 1); (3, 1); (6, 1)] = top ++ rest
    ∧ len top = Z.min (Z.max 2 0) (len [(2, 2); (4, 1); (3, 1); (6, 1)])
    ∧ ∀ e e', e ∈ top → e' ∈ rest → e'.2 ≤ e.2.
Proof.
  apply (find_key_lengths_top_n elements [4; 6] 2). by vm_compute.
Defined.

(** ** The pipeline of the [__main__] block *)

Section pipeline.
Variable set_iter : gset Z → list Z.

(** X9: the pipeline raises nothing but [ValueError], and raises it exactly
    when [find_repeat_sequences] rejects [min_length] or two offsets listed
    for a key are adjacent, so that a spacing is 1. *)
Theorem key_lengths_of_text_raises_iff text min_length n :
  (∀ e, key_lengths_of_text set_iter text min_length n = Raise e →
        e = ValueError)
  ∧ key_lengths_of_text set_iter text min_length n ≠ OutOfFuel
  ∧ (key_lengths_of_text set_iter text min_length n = Raise ValueError
     ↔ (min_length < 2 ∨ min_length >= len text `div` 2)
       ∨ ∃ sequences, find_repeat_sequences text min_length = Ok sequences
                      ∧ 1 ∈ get_spaces sequences).
Proof.
  unfold key_lengths_of_text.
  destruct (decide (min_length < 2 ∨ min_length >= len text `div` 2)) as [Hbad|Hok].
  - unfold find_repeat_sequences. rewrite decide_True by done. simpl.
    split_and!; [by intros e [= <-]|done|]. split; [by left|done].
  - rewrite find_repeat_sequences_Ok by lia. simpl.
    pose proof (find_repeat_sequences_Ok text min_length ltac:(lia)) as Hd.
    set (sequences := filter (λ kv, 1 < len kv.2) (scan_text text min_length)) in *.
    destruct (find_key_lengths_outcome set_iter (get_spaces sequences) n)
      as [[Hall [result Hr]]|[(x & Hx & Hle) Hr]]; rewrite Hr.
    + split_and!; [done..|]. split; [done|].
      intros [?|(sequences' & [= <-] & Hone)]; [done|].
      rewrite Forall_forall in Hall. specialize (Hall 1 Hone). lia.
    + split_and!; [by intros e [= <-]|done|]. split; [|done].
      intros _. right. exists sequences. split; [done|].
      pose proof (scan_spaces_bounds _ _ _ _ Hd Hx) as Hb.
      by replace 1 with x by lia.
Qed.

Hypothesis set_iter_perm : ∀ factors, set_iter factors ≡ₚ elements factors.

Lemma find_key_lengths_entry spaces n result f c :
  find_key_lengths set_iter spaces n = Ok result →
  (f, c) ∈ result →
  2 ≤ f ∧ (∃ x, x ∈ spaces ∧ (f | x)) ∧ c = votes f spaces.
Proof.
  intros Hr Hin.
  destruct (find_key_lengths_outcome set_iter spaces n)
    as [[Hall _]|[_ Hraise]]; [|congruence].
  unfold find_key_lengths in Hr.
  rewrite (collect_factors_Ok set_iter [] spaces Hall) in Hr. simpl in Hr.
  assert ((f, c) ∈ foldl tally []
            (flat_map (λ x, set_iter (factor_set x)) spaces)) as Hentry.
  { rewrite <- (sorted_by_count_perm (foldl tally [] _)).
    destruct n as [n|]; injection Hr as <-; [|done].
    by apply (subseteq_take (Z.to_nat n)). }
  apply entries_foldl_tally in Hentry as [Hf ->].
  apply (elem_of_all_factors set_iter set_iter_perm) in Hf as [Hf Hx]; [|done].
  split_and!; [lia|done|].
  apply (count_all_factors set_iter set_iter_perm); done.
Qed.

(** X10: every key length the pipeline reports is at least 2 and smaller
    than [len(text) - min_length], and its count is at least 1. *)
Theorem key_lengths_of_text_bounds text min_length n result f c :
  key_lengths_of_text set_iter text min_length n = Ok result →
  (f, c) ∈ result →
  2 ≤ f < len text - min_length ∧ 1 ≤ c.
Proof.
  unfold key_lengths_of_text.
  destruct (find_repeat_sequences text min_length) as [sequences| |] eqn:Hd;
    simpl; [|done..].
  intros Hr Hin.
  destruct (find_key_lengths_entry _ _ _ _ _ Hr Hin) as (Hf & (x & Hx & Hdiv) & ->).
  pose proof (scan_spaces_bounds _ _ _ _ Hd Hx) as Hb.
  split_and!; [done| |].
  - apply Z.divide_pos_le in Hdiv; lia.
  - unfold votes, len.
    assert (x ∈ filter (λ d, (f | d)) (get_spaces sequences)) as Hfx.
    { by apply list_elem_of_filter. }
    destruct (filter _ _); [by apply elem_of_nil in Hfx|]. simpl. lia.
Qed.

End pipeline.

Example key_lengths_abcabcab :
  key_lengths_of_text elements text_abcabcab 2 None = Ok [(3, 6)].
Proof. by vm_compute. Qed.

Lemma key_lengths_of_text_bounds_witness :
  2 ≤ 3 < len text_abcabcab - 2 ∧ 1 ≤ 6.
Proof.
  apply (key_lengths_of_text_bounds elements) with (n := None) (result := [(3, 6)]).
  - intros factors. reflexivity.
  - by vm_compute.
  - left.
Defined.

(** * Further properties of language.py *)

Section language_more.
Context {R : Type} `{Number R}.
Implicit Types (st : store R) (text language : str).

(** X11: [_get_available_languages] yields a name exactly when the
    directory holds the file of that name with the suffix [.json]; the
    other files of the directory yield nothing. *)
Theorem available_languages_listed st language :
  language ∈ _get_available_languages st
  ↔ language ++ json_suffix ∈ listdir st.
Proof. apply available_iff_listed. Qed.

(** ** Which tables [detect_language] loads *)

Lemma load_tables_returns_iff st frequency_tables languages :
  (∃ loaded, load_tables st frequency_tables languages = Ok loaded)
  ↔ ∀ language, language ∈ languages →
                ∃ table, open_load st language = Ok table.
Proof.
  revert frequency_tables.
  induction languages as [|l languages IH]; intros frequency_tables.
  - split; [|by eexists]. intros _ language Hin. by apply elem_of_nil in Hin.
  - cbn [load_tables]. split.
    + intros [loaded Hload] language Hin.
      destruct (open_load st l) as [table| |] eqn:Hl; simpl in Hload; [|done..].
      apply elem_of_cons in Hin as [->|Hin]; [eauto|].
      by apply (proj1 (IH _) (ex_intro _ loaded Hload)).
    + intros Hall. destruct (Hall l ltac:(left)) as [table ->]. simpl.
      apply IH. intros language Hin. apply Hall. by right.
Qed.

(** ** The languages of the returned dictionary *)

Lemma elem_of_keys_setitem {K V : Type} `{EqDecision K}
    (d : list (K * V)) (k k' : K) (v : V) :
  k' ∈ Dict.keys (Dict.setitem d k v) ↔ k' ∈ Dict.keys d ∨ k' = k.
Proof.
  rewrite keys_setitem. case_decide as Hk.
  - split; [by left|]. intros [?| ->]; done.
  - rewrite elem_of_app, list_elem_of_singleton. done.
Qed.

Lemma keys_setitem_new {K V : Type} `{EqDecision K}
    (d : list (K * V)) (k : K) (v : V) :
  k ∉ Dict.keys d → Dict.keys (Dict.setitem d k v) = Dict.keys d ++ [k].
Proof. intros Hk. rewrite keys_setitem. by rewrite decide_False. Qed.

Lemma load_tables_keys st frequency_tables languages loaded language :
  load_tables st frequency_tables languages = Ok loaded →
  language ∈ Dict.keys loaded
  ↔ language ∈ Dict.keys frequency_tables ∨ language ∈ languages.
Proof.
  revert frequency_tables.
  induction languages as [|l languages IH]; intros frequency_tables.
  - intros [= <-]. split; [by left|]. intros [?|Hin]; [done|].
    by apply elem_of_nil in Hin.
  - cbn [load_tables]. destruct (open_load st l) as [table| |]; simpl; [|done..].
    intros Hload. rewrite (IH _ Hload), elem_of_keys_setitem, elem_of_cons. tauto.
Qed.

Lemma load_tables_keys_order st frequency_tables languages loaded :
  load_tables st frequency_tables languages = Ok loaded →
  NoDup languages →
  (∀ language, language ∈ languages → language ∉ Dict.keys frequency_tables) →
  Dict.keys loaded = Dict.keys frequency_tables ++ languages.
Proof.
  revert frequency_tables.
  induction languages as [|l languages IH]; intros frequency_tables.
  - intros [= <-] _ _. by rewrite app_nil_r.
  - cbn [load_tables]. destruct (open_load st l) as [table| |]; simpl; [|done..].
    intros Hload Hnd Hnew. apply NoDup_cons in Hnd as [Hl Hnd].
    rewrite (IH _ Hload Hnd).
    + rewrite keys_setitem_new by (apply Hnew; left). by rewrite <- app_assoc.
    + intros language Hin. rewrite elem_of_keys_setitem.
      intros [Hold| ->]; [|done]. by apply (Hnew language); [right|].
Qed.

Lemma score_tables_keys text_frequency text_length similarities
    (tables : list (str * list (str * R))) scores :
  score_tables text_frequency text_length similarities tables = Ok scores →
  NoDup (Dict.keys tables) →
  (∀ language, language ∈ Dict.keys tables →
               language ∉ Dict.keys similarities) →
  Dict.keys scores = Dict.keys similarities ++ Dict.keys tables.
Proof.
  revert similarities.
  induction tables as [|[l t] tables IH]; intros similarities.
  - intros [= <-] _ _. by rewrite app_nil_r.
  - cbn [score_tables].
    destruct (accumulate _ _ _ _) as [s| |]; simpl; [|done..].
    intros Hscore Hnd Hnew. unfold Dict.keys in Hnd, Hnew. cbn [map fst] in Hnd, Hnew.
    apply NoDup_cons in Hnd as [Hl Hnd].
    rewrite (IH _ Hscore Hnd).
    + rewrite keys_setitem_new by (apply Hnew; left).
      unfold Dict.keys. cbn [map fst]. by rewrite <- app_assoc.
    + intros language Hin. rewrite elem_of_keys_setitem.
      intros [Hold| ->]; [|done]. by apply (Hnew language); [right|].
Qed.

(** X14: the dictionary [detect_language] returns has one entry for each
    requested language and no other; for a list without repetitions its
    keys are the list, in that order. *)
Theorem detect_language_keys st text languages similarities :
  detect_language st text languages = Ok similarities →
  NoDup (Dict.keys similarities)
  ∧ (∀ language,
       language ∈ Dict.keys similarities
       ↔ language ∈ default (_get_available_languages st) languages)
  ∧ (NoDup (default (_get_available_languages st) languages) →
     Dict.keys similarities = default (_get_available_languages st) languages).
Proof.
  assert (default (_get_available_languages st) languages
          = match languages with
            | Some l => l
            | None => _get_available_languages st
            end) as -> by by destruct languages.
  unfold detect_language.
  destruct (load_tables st [] _) as [loaded| |] eqn:Hload; simpl; [|done..].
  intros Hscore.
  pose proof (load_tables_NoDup _ _ _ _ Hload ltac:(constructor)) as Hnd.
  assert (Dict.keys similarities = Dict.keys loaded) as ->.
  { rewrite (score_tables_keys _ _ _ _ _ Hscore Hnd); [done|].
    intros language _. apply not_elem_of_nil. }
  split_and!.
  - done.
  - intros language. rewrite (load_tables_keys _ _ _ _ _ Hload). split.
    + intros [Hin|?]; [|done]. by apply elem_of_nil in Hin.
    + by right.
  - intros Hnd'. rewrite (load_tables_keys_order _ _ _ _ Hload Hnd'); [done|].
    intros language _. apply not_elem_of_nil.
Qed.

(** X15: the score of a language does not depend on the other languages
    requested: it is the score [detect_language] returns when that language
    is requested alone. *)
Theorem detect_language_each st text languages similarities language :
  detect_language st text (Some languages) = Ok similarities →
  language ∈ languages →
  ∃ score,
    Dict.lookup similarities language = Some score
    ∧ detect_language st text (Some [language]) = Ok [(language, score)].
Proof.
  unfold detect_language at 1.
  destruct (load_tables st [] languages) as [loaded| |] eqn:Hload; simpl;
    [|done..].
  intros Hscore Hin.
  destruct (proj1 (load_tables_returns_iff st [] languages)
              (ex_intro _ loaded Hload) language Hin) as [table Hopen].
  pose proof (load_tables_lookup _ _ _ _ _ _ Hload Hin Hopen) as Hl.
  pose proof (load_tables_NoDup _ _ _ _ Hload ltac:(constructor)) as Hnd.
  destruct (score_tables_lookup _ _ _ _ _ _ _ Hscore Hnd Hl) as (s & Hs & Hls).
  exists (sub (of_int 1) s). split; [done|].
  rewrite detect_language_single, Hopen. simpl. by rewrite Hs.
Qed.

(** ** What the scores depend on *)

Lemma lower_char_idemp (c : ascii) : lower_char (lower_char c) = lower_char c.
Proof. destruct c as [[] [] [] [] [] [] [] []]; by vm_compute. Qed.

Lemma lower_idemp (text : str) : lower (lower text) = lower text.
Proof.
  unfold lower. rewrite map_map. apply map_ext. intros c. apply lower_char_idemp.
Qed.

Lemma len_lower (text : str) : len (lower text) = len text.
Proof. unfold len, lower. by rewrite length_map. Qed.

Lemma lookup_count_fold (l : list str) (counts : list (str * Z)) (k : str) :
  Dict.lookup
    (foldl (λ counts e, Dict.setitem counts e (Dict.get counts e 0 + 1)) counts l) k
  = if decide (k ∈ l)
    then Some (Dict.get counts k 0 + len (filter (λ e, e = k) l))
    else Dict.lookup counts k.
Proof.
  unfold len. revert counts. induction l as [|x l IH]; intros counts.
  - rewrite decide_False; [done|apply not_elem_of_nil].
  - cbn [foldl]. rewrite IH. clear IH. rewrite filter_cons.
    unfold Dict.get at 1. rewrite !lookup_setitem.
    destruct (decide (k ∈ l)) as [Hin|Hnin].
    + rewrite (decide_True (P := k ∈ x :: l)) by by right.
      destruct (decide (k = x)) as [->|Hne].
      * rewrite (decide_True (P := x = x)) by done. simpl. f_equal.
        unfold Dict.get. lia.
      * rewrite (decide_False (P := x = k)) by done. done.
    + destruct (decide (k = x)) as [->|Hne].
      * rewrite (decide_True (P := x ∈ x :: l)) by left.
        rewrite (decide_True (P := x = x)) by done. simpl.
        rewrite (filter_none (λ e, e = x) l); [f_equal; simpl; lia|].
        intros y Hy ->. done.
      * rewrite (decide_False (P := k ∈ x :: l)); [done|].
        rewrite not_elem_of_cons. done.
Qed.

(** The counter holds, for each element, the number of its occurrences. *)
Lemma lookup_Counter (l : list str) (k : str) :
  Dict.lookup (Counter l) k
  = if decide (k ∈ l) then Some (len (filter (λ e, e = k) l)) else None.
Proof.
  unfold Counter. rewrite lookup_count_fold. by case_decide.
Qed.

Lemma lookup_Counter_perm (l l' : list str) (k : str) :
  l ≡ₚ l' → Dict.lookup (Counter l) k = Dict.lookup (Counter l') k.
Proof.
  intros Hperm. rewrite !lookup_Counter.
  assert (len (filter (λ e, e = k) l) = len (filter (λ e, e = k) l')) as ->.
  { unfold len. by rewrite Hperm. }
  destruct (decide (k ∈ l)) as [Hin|Hnin], (decide (k ∈ l')) as [Hin'|Hnin'];
    try done.
  - exfalso. apply Hnin'. by rewrite <- Hperm.
  - exfalso. apply Hnin. by rewrite Hperm.
Qed.

Lemma accumulate_ext (text_frequency text_frequency' : list (str * Z))
    text_length similarity (items : list (str * R)) :
  (∀ k, Dict.lookup text_frequency k = Dict.lookup text_frequency' k) →
  accumulate text_frequency text_length similarity items
  = accumulate text_frequency' text_length similarity items.
Proof.
  intros Hext. revert similarity.
  induction items as [|[char frequency] items IH]; intros similarity; [done|].
  cbn [accumulate]. unfold Dict.contains, Dict.get. rewrite Hext.
  destruct (Dict.lookup text_frequency' char); [|apply IH].
  destruct (div_length _ _); simpl; [apply IH|done..].
Qed.

Lemma score_tables_ext (text_frequency text_frequency' : list (str * Z))
    text_length similarities (tables : list (str * list (str * R))) :
  (∀ k, Dict.lookup text_frequency k = Dict.lookup text_frequency' k) →
  score_tables text_frequency text_length similarities tables
  = score_tables text_frequency' text_length similarities tables.
Proof.
  intros Hext. revert similarities.
  induction tables as [|[l t] tables IH]; intros similarities; [done|].
  cbn [score_tables]. rewrite (accumulate_ext _ _ _ _ _ Hext).
  destruct (accumulate _ _ _ _); simpl; [apply IH|done..].
Qed.

(** X16: both entry points ignore the case of the text: they return for
    [text.lower()] what they return for [text]. *)
Theorem scores_ignore_case st text languages language threshold :
  detect_language st (lower text) languages = detect_language st text languages
  ∧ is_typical st (lower text) language threshold
    = is_typical st text language threshold.
Proof.
  unfold detect_language, is_typical.
  by rewrite lower_idemp, len_lower.
Qed.

(** X17: for texts over characters with code points below 256, the scores
    depend on the text only through the number of occurrences of each
    character: two texts that are permutations of each other get the same
    result from both entry points. *)
Theorem scores_of_permuted_text st text text' languages language threshold :
  text ≡ₚ text' →
  detect_language st text languages = detect_language st text' languages
  ∧ is_typical st text language threshold
    = is_typical st text' language threshold.
Proof.
  intros Hperm.
  assert (len text = len text') as Hlen.
  { unfold len. by rewrite Hperm. }
  assert (∀ k, Dict.lookup (Counter (chars (lower text))) k
               = Dict.lookup (Counter (chars (lower text'))) k) as Hext.
  { intros k. apply lookup_Counter_perm. unfold chars, lower.
    by do 2 apply Permutation_map. }
  unfold detect_language, is_typical. rewrite Hlen. split.
  - destruct (load_tables st [] _); simpl; [|done..].
    by apply score_tables_ext.
  - case_decide; [done|].
    destruct (open_load st language); simpl; [|done..].
    by rewrite (accumulate_ext _ _ _ _ _ Hext).
Qed.

End language_more.

Lemma scores_of_permuted_text_witness :
  detect_language demo_store text_tee (Some [english])
  = detect_language demo_store (list_ascii_of_string "eTe") (Some [english])
  ∧ is_typical demo_store text_tee english 0%Q
    = is_typical demo_store (list_ascii_of_string "eTe") english 0%Q.
Proof.
  apply (scores_of_permuted_text demo_store text_tee (list_ascii_of_string "eTe")).
  apply perm_swap.
Defined.

Lemma detect_language_keys_witness :
  NoDup (Dict.keys [(english, 1%Q)])
  ∧ (∀ language,
       language ∈ Dict.keys [(english, 1%Q)]
       ↔ language ∈ default (_get_available_languages demo_store) (Some [english]))
  ∧ (NoDup (default (_get_available_languages demo_store) (Some [english])) →
     Dict.keys [(english, 1%Q)]
     = default (_get_available_languages demo_store) (Some [english])).
Proof.
  apply (detect_language_keys demo_store [] (Some [english])). by vm_compute.
Defined.

Lemma detect_language_each_witness :
  ∃ score,
    Dict.lookup [(english, 1%Q)] english = Some score
    ∧ detect_language demo_store [] (Some [english]) = Ok [(english, score)].
Proof.
  apply (detect_language_each demo_store [] [english; english]).
  - by vm_compute.
  - left.
Defined.

(** * Further properties of find_repeat_sequences *)

Lemma len_two_distinct (l : list Z) (p q : Z) :
  p ∈ l → q ∈ l → p ≠ q → 1 < len l.
Proof.
  unfold len. destruct l as [|a [|b l]]; intros Hp Hq Hne; simpl; try lia.
  - by apply elem_of_nil in Hp.
  - apply list_elem_of_singleton in Hp, Hq. congruence.
Qed.

(** X20: every repeat away from the last window is found: a sequence of a
    scanned length that occurs at two different offsets below
    [len(text) - len(sequence)] is a key of the returned dictionary, and
    both offsets are listed for it. *)
Theorem find_repeat_sequences_complete text min_length s p q :
  2 ≤ min_length < len text `div` 2 →
  min_length ≤ len s ≤ len text `div` 2 →
  occurs_at text s p → occurs_at text s q → p ≠ q →
  p < len text - len s → q < len text - len s →
  ∃ sequences positions,
    find_repeat_sequences text min_length = Ok sequences
    ∧ (s, positions) ∈ Dict.items sequences
    ∧ p ∈ positions ∧ q ∈ positions.
Proof.
  intros Hm Hlen Hp Hq Hne Hpl Hql.
  pose proof (find_repeat_sequences_Ok text min_length Hm) as Hd.
  assert (p ∈ scanned_positions text s) as Hp'.
  { apply scanned_positions_occurs. by split. }
  assert (q ∈ scanned_positions text s) as Hq'.
  { apply scanned_positions_occurs. by split. }
  eexists _, (scanned_positions text s). split_and!; [exact Hd| |done..].
  apply (find_repeat_sequences_entries _ _ _ _ _ Hd).
  split_and!; [lia..|done|]. by apply (len_two_distinct _ p q).
Qed.

Lemma find_repeat_sequences_complete_witness :
  ∃ sequences positions,
    find_repeat_sequences text_abcabcab 2 = Ok sequences
    ∧ (list_ascii_of_string "abc", positions) ∈ Dict.items sequences
    ∧ 0 ∈ positions ∧ 3 ∈ positions.
Proof.
  apply (find_repeat_sequences_complete text_abcabcab 2
           (list_ascii_of_string "abc") 0 3).
  - by vm_compute.
  - by vm_compute.
  - unfold occurs_at. by vm_compute.
  - unfold occurs_at. by vm_compute.
  - done.
  - by vm_compute.
  - by vm_compute.
Defined.

(** X21: with a key the dictionary holds each of its prefixes of length
    [min_length] or more, and every offset listed for the key is listed for
    the prefix. *)
Theorem find_repeat_sequences_prefix text min_length sequences s positions k :
  find_repeat_sequences text min_length = Ok sequences →
  (s, positions) ∈ Dict.items sequences →
  min_length ≤ k ≤ len s →
  ∃ positions',
    (take (Z.to_nat k) s, positions') ∈ Dict.items sequences
    ∧ positions ⊆ positions'.
Proof.
  intros Hd Hin Hk.
  pose proof (find_repeat_sequences_pre _ _ _ Hd) as Hm.
  apply (find_repeat_sequences_entries _ _ _ _ _ Hd) in Hin as (Hlen & -> & Hps).
  set (s' := take (Z.to_nat k) s).
  assert (len s' = k) as Hlen'.
  { unfold s', len in *. rewrite length_take. lia. }
  assert (scanned_positions text s ⊆ scanned_positions text s') as Hsub.
  { intros p Hp. apply scanned_positions_occurs in Hp as [Hp Hpl].
    apply scanned_positions_occurs. split; [|lia].
    apply occurs_at_prefix; [lia|done]. }
  exists (scanned_positions text s'). split; [|done].
  apply (find_repeat_sequences_entries _ _ _ _ _ Hd).
  split_and!; [lia..|done|].
  pose proof (scanned_positions_increasing text s) as Hinc.
  destruct (scanned_positions text s) as [|p [|q l]] eqn:Hsp;
    try (unfold len in Hps; simpl in Hps; lia).
  assert (p < q) as Hpq by by apply (increasing_adjacent_lt [] l).
  apply (len_two_distinct _ p q); [apply Hsub; left|apply Hsub; right; left|lia].
Qed.

Lemma find_repeat_sequences_prefix_witness :
  ∃ positions',
    (take (Z.to_nat 2) seq_aba, positions')
    ∈ Dict.items [(seq_ab, [0; 2]); (seq_ba, [1; 3]); (seq_aba, [0; 2])]
    ∧ [0; 2] ⊆ positions'.
Proof.
  apply (find_repeat_sequences_prefix text_ababab 2 _ seq_aba [0; 2] 2).
  - by vm_compute.
  - right. right. left.
  - by vm_compute.
Defined.
